(** * Counterexample reconstruction (src/src/model.ts)

    A shallow embedding of the [Model] class of [model.ts]: the decoder that
    turns the S-expression of a solver model into lookup tables, and the
    hydration of lazy values into concrete JavaScript values.

    Modelling boundary.
    - A JavaScript string is the list of its UTF-16 code units.
    - A JavaScript number carried by a value is an IEEE binary64 float
      ([spec_float] at precision 53).  A number used as an index (array
      length, element index, heap generation, arity) is an exact integer or
      NaN; this agrees with binary64 below 2^53.
    - An object used as a map is a finite map over its own properties;
      members inherited from [Object.prototype] are not part of the model.
    - Exceptions are explicit results; hydration, which need not terminate
      on a cyclic model, takes a fuel argument.
    - The helpers imported from [./util] ([parseSExpr], [matchSExpr]) and
      the syntax tree of [./javascript] are not among the sources; they are
      modelled from the specification, and marked so where they are
      declared. *)

From Stdlib Require Import ZArith NArith List String Ascii Bool Lia.
From Stdlib Require Import DecimalString SpecFloat.
From stdpp Require Import base option list gmap.

Set Warnings "-register-all".
Local Open Scope Z_scope.
Local Open Scope list_scope.

(** ** Strings *)

Module JSString.

Definition jsstring := list N.

(** A string constant of the source: the code units of an ASCII literal. *)
Definition js (s : string) : jsstring :=
  List.map N_of_ascii (list_ascii_of_string s).

(** The double quote, U+0022. *)
Definition dquote : jsstring := [34%N].

Definition str_eqb (a b : jsstring) : bool := bool_decide (a = b).

Fixpoint startsWith (s p : jsstring) : bool :=
  match p, s with
  | [], _ => true
  | c :: p', d :: s' => N.eqb c d && startsWith s' p'
  | _ :: _, [] => false
  end.

Definition endsWith (s p : jsstring) : bool :=
  startsWith (rev s) (rev p).

(** [s.substr(i)] for a literal [i >= 0]. *)
Definition substr_from (i : nat) (s : jsstring) : jsstring := drop i s.

(** [s.substr(1, s.length - 2)]: a negative length gives the empty string. *)
Definition strip_ends (s : jsstring) : jsstring :=
  take (length s - 2)%nat (drop 1 s).

(** WhiteSpace and LineTerminator code units, the set removed by
    [String.prototype.trim] and skipped by [parseInt] and [parseFloat]. *)
Definition is_space (c : N) : bool :=
  ((9 <=? c) && (c <=? 13) || (c =? 32) || (c =? 160) || (c =? 5760)
   || (8192 <=? c) && (c <=? 8202) || (c =? 8232) || (c =? 8233)
   || (c =? 8239) || (c =? 8287) || (c =? 12288) || (c =? 65279))%N.

Fixpoint trimStart (s : jsstring) : jsstring :=
  match s with
  | c :: s' => if is_space c then trimStart s' else s
  | [] => []
  end.

Definition trim (s : jsstring) : jsstring :=
  rev (trimStart (rev (trimStart s))).

(** [String.fromCharCode(n)] for an integer [n], or NaN ([None]): the code
    unit [n mod 2^16], and 0 for NaN. *)
Definition fromCharCode (n : option Z) : jsstring :=
  match n with
  | Some z => [Z.to_N (z mod 65536)]
  | None => [0%N]
  end.

(** Decimal text of an integer, as [String(n)] prints it. *)
Definition of_Z (z : Z) : jsstring := js (NilZero.string_of_int (Z.to_int z)).

Fixpoint join (sep : jsstring) (l : list jsstring) : jsstring :=
  match l with
  | [] => []
  | [s] => s
  | s :: l' => s ++ sep ++ join sep l'
  end.

End JSString.
Export JSString.

(** ** Numbers *)

Module JSNumber.

(** The Number type: IEEE binary64. *)
Definition number := spec_float.
Definition prec : Z := 53.
Definition emax : Z := 1024.

(** An index-like number: an exact integer, or NaN ([None]). *)
Definition jsint := option Z.
Definition NaN : jsint := None.
Definition Int (z : Z) : jsint := Some z.

Definition isNaN (x : number) : bool :=
  match x with S754_nan => true | _ => false end.

(** The binary64 nearest to [(-1)^neg * m * 10^e10] (ties to even).  A
    negative exponent is handled by a quotient with a sticky last bit,
    wide enough (64 bits) for one final rounding to be exact. *)
Definition of_decimal (neg : bool) (m : N) (e10 : Z) : number :=
  if (m =? 0)%N then S754_zero neg
  else
    let mz := Z.of_N m in
    let r :=
      if 0 <=? e10 then binary_normalize prec emax (mz * 10 ^ e10) 0 false
      else
        let d := 10 ^ (- e10) in
        let s := Z.max 0 (Z.log2 d - Z.log2 mz + 64) in
        let n := mz * 2 ^ s in
        let q := n / d in
        let q' := if n mod d =? 0 then q else Z.lor q 1 in
        binary_normalize prec emax q' (- s) false in
    if neg then SFopp r else r.

Definition neg (x : number) : number := SFopp x.
Definition add (x y : number) : number := SFadd prec emax x y.
Definition mul (x y : number) : number := SFmul prec emax x y.
Definition div (x y : number) : number := SFdiv prec emax x y.

(** [Math.floor]. *)
Definition floor (x : number) : number :=
  match x with
  | S754_finite s m e =>
      if 0 <=? e then x
      else
        let z := (if s then Z.neg m else Z.pos m) / 2 ^ (- e) in
        binary_normalize prec emax z 0 s
  | _ => x
  end.

Definition digit_val (c : N) : option N :=
  if ((48 <=? c) && (c <=? 57))%N then Some (c - 48)%N
  else if ((97 <=? c) && (c <=? 122))%N then Some (c - 87)%N
  else if ((65 <=? c) && (c <=? 90))%N then Some (c - 55)%N
  else None.

(** The longest prefix of [s] made of digits of the radix, as digit values,
    and the text that follows it. *)
Fixpoint read_digits (radix : N) (s : jsstring) : list N * jsstring :=
  match s with
  | c :: s' =>
      match digit_val c with
      | Some d =>
          if (d <? radix)%N then
            let '(ds, rest) := read_digits radix s' in (d :: ds, rest)
          else ([], s)
      | None => ([], s)
      end
  | [] => ([], [])
  end.

Definition digits_value (radix : N) (ds : list N) : N :=
  fold_left (fun acc d => (acc * radix + d)%N) ds 0%N.

(** An optional sign in front of [s]: [true] for a minus sign. *)
Definition read_sign (s : jsstring) : bool * jsstring :=
  match s with
  | 45%N :: s' => (true, s')
  | 43%N :: s' => (false, s')
  | _ => (false, s)
  end.

(** The steps of [parseInt(s, radix)] before the final conversion: the sign
    and the magnitude of the digits read, or [None] when there is no
    digit.  Radix 16 skips a [0x] or [0X] prefix. *)
Definition parseIntParts (s : jsstring) (radix : N) : option (bool * N) :=
  let '(sign, s1) := read_sign (trimStart s) in
  let s2 :=
    if (radix =? 16)%N then
      match s1 with
      | 48%N :: 120%N :: s' => s'
      | 48%N :: 88%N :: s' => s'
      | _ => s1
      end
    else s1 in
  match read_digits radix s2 with
  | ([], _) => None
  | (ds, _) => Some (sign, digits_value radix ds)
  end.

(** [parseInt(s, radix)] where the result is used as an index. *)
Definition parseInt (s : jsstring) (radix : N) : jsint :=
  match parseIntParts s radix with
  | Some (sign, n) => Int (if sign then - Z.of_N n else Z.of_N n)
  | None => NaN
  end.

(** [parseInt(s, radix)] where the result is stored as a Number. *)
Definition parseIntNumber (s : jsstring) (radix : N) : number :=
  match parseIntParts s radix with
  | Some (sign, n) => of_decimal sign n 0
  | None => S754_nan
  end.

(** [parseFloat(s)]: the longest prefix that is a StrDecimalLiteral. *)
Definition parseFloat (s : jsstring) : number :=
  let '(sign, s1) := read_sign (trimStart s) in
  if startsWith s1 (js "Infinity") then S754_infinity sign
  else
    let '(ip, r1) := read_digits 10 s1 in
    let '(fp, r2) :=
      match r1 with
      | 46%N :: r1' =>
          let '(fp, r2) := read_digits 10 r1' in
          match ip, fp with
          | [], [] => ([], r1)
          | _, _ => (fp, r2)
          end
      | _ => ([], r1)
      end in
    match ip, fp with
    | [], [] => S754_nan
    | _, _ =>
        let ex :=
          match r2 with
          | c :: r3 =>
              if ((c =? 101) || (c =? 69))%N then
                let '(esign, r4) := read_sign r3 in
                match read_digits 10 r4 with
                | ([], _) => 0
                | (eds, _) =>
                    let e := Z.of_N (digits_value 10 eds) in
                    if esign then - e else e
                end
              else 0
          | [] => 0
          end in
        of_decimal sign (digits_value 10 (ip ++ fp)) (ex - Z.of_nat (length fp))
    end.


End JSNumber.
Export JSNumber.

(** ** Symbolic expressions (the interface of [./util]) *)

(** Modelled from the spec: the type [SExpr] of [./util] is not among the
    sources.  An expression is an atom or an ordered list of expressions
    ("atoms and ordered lists"); the decoder tells them apart with
    [typeof s === 'string']. *)
Inductive SExpr : Type :=
| Atom (s : jsstring)
| SList (l : list SExpr).

(** Modelled from the spec: the templates of [matchSExpr] are not among the
    sources.  From their uses in the decoder, a template is a literal atom,
    a capture of an atom ([{ name }]), of a list ([{ group }]) or of any
    expression ([{ expr }]), or a list of templates. *)
Inductive SExprPattern : Type :=
| PLit (s : jsstring)
| PName (n : string)
| PGroup (n : string)
| PExpr (n : string)
| PList (ps : list SExprPattern).

(** The captures of a match, by name; a later capture of a name hides an
    earlier one. *)
Definition Bindings := list (string * SExpr).

Definition capture (b : Bindings) (n : string) : option SExpr :=
  match find (fun p => String.eqb (fst p) n) (rev b) with
  | Some p => Some (snd p)
  | None => None
  end.

(** Modelled from the spec: [matchSExpr] of [./util] is not among the
    sources.  It is the "declarative shape-matcher that extracts named
    captures from a tree against a template": a literal matches the equal
    atom, a name capture matches an atom, a group capture matches a list, an
    expression capture matches anything, and a list template matches a list
    of the same length element by element. *)
Fixpoint matchSExpr (e : SExpr) (p : SExprPattern) {struct p} : option Bindings :=
  match p with
  | PLit s => match e with
              | Atom a => if str_eqb a s then Some [] else None
              | SList _ => None
              end
  | PName n => match e with
               | Atom _ => Some [(n, e)]
               | SList _ => None
               end
  | PGroup n => match e with
                | Atom _ => None
                | SList _ => Some [(n, e)]
                end
  | PExpr n => Some [(n, e)]
  | PList ps =>
      match e with
      | Atom _ => None
      | SList es =>
          (fix go (ps : list SExprPattern) (es : list SExpr) : option Bindings :=
             match ps, es with
             | [], [] => Some []
             | p :: ps', e :: es' =>
                 match matchSExpr e p with
                 | Some b => match go ps' es' with
                             | Some b' => Some (b ++ b')
                             | None => None
                             end
                 | None => None
                 end
             | _, _ => None
             end) ps es
      end
  end.

(** [s.toString()] of an S-expression: a list prints its elements separated
    by commas, without brackets. *)
Fixpoint SExpr_toString (e : SExpr) : jsstring :=
  match e with
  | Atom s => s
  | SList l => join (js ",") (List.map SExpr_toString l)
  end.

Module JSON.

Definition hex_digit (n : N) : N :=
  if (n <? 10)%N then (48 + n)%N else (87 + n)%N.

(** The escape [\uXXXX] of a code unit. *)
Definition unicode_escape (c : N) : jsstring :=
  [92; 117; hex_digit (c / 4096 mod 16); hex_digit (c / 256 mod 16);
   hex_digit (c / 16 mod 16); hex_digit (c mod 16)]%N.

Definition is_high (c : N) : bool := ((55296 <=? c) && (c <=? 56319))%N.
Definition is_low (c : N) : bool := ((56320 <=? c) && (c <=? 57343))%N.

Definition escape_unit (c : N) : jsstring :=
  if (c =? 8)%N then js "\b"
  else if (c =? 9)%N then js "\t"
  else if (c =? 10)%N then js "\n"
  else if (c =? 12)%N then js "\f"
  else if (c =? 13)%N then js "\r"
  else if (c =? 34)%N then [92; 34]%N
  else if (c =? 92)%N then [92; 92]%N
  else if (c <? 32)%N || is_high c || is_low c then unicode_escape c
  else [c].

(** The body of QuoteJSONString: surrogate pairs are kept, lone surrogates
    and control characters are escaped. *)
Fixpoint escape (s : jsstring) : jsstring :=
  match s with
  | [] => []
  | c :: s' =>
      match s' with
      | d :: s'' =>
          if is_high c && is_low d then c :: d :: escape s''
          else escape_unit c ++ escape s'
      | [] => escape_unit c
      end
  end.

Definition quote (s : jsstring) : jsstring := dquote ++ escape s ++ dquote.

(** [JSON.stringify] of an S-expression. *)
Fixpoint stringify (e : SExpr) : jsstring :=
  match e with
  | Atom s => quote s
  | SList l => js "[" ++ join (js ",") (List.map stringify l) ++ js "]"
  end.

End JSON.

Module Reader.

Inductive Token : Type :=
| TOpen
| TClose
| TAtom (s : jsstring).

(** The state of the scanner: no token open, inside a plain atom, or inside
    a quoted literal; the token text is accumulated in reverse. *)
Inductive Scan : Type :=
| Idle
| InAtom (acc : jsstring)
| InQuote (acc : jsstring).

Definition flush (st : Scan) : list Token :=
  match st with
  | Idle => []
  | InAtom acc | InQuote acc => [TAtom (rev acc)]
  end.

Fixpoint tokenize (st : Scan) (s : jsstring) : list Token :=
  match s with
  | [] => flush st
  | c :: s' =>
      match st with
      | InQuote acc =>
          if (c =? 34)%N then TAtom (rev (c :: acc)) :: tokenize Idle s'
          else tokenize (InQuote (c :: acc)) s'
      | _ =>
          if (c =? 40)%N then flush st ++ TOpen :: tokenize Idle s'
          else if (c =? 41)%N then flush st ++ TClose :: tokenize Idle s'
          else if is_space c then flush st ++ tokenize Idle s'
          else
            match st with
            | InAtom acc => tokenize (InAtom (c :: acc)) s'
            | _ => if (c =? 34)%N then tokenize (InQuote [c]) s'
                   else tokenize (InAtom [c]) s'
            end
      end
  end.

(** The first complete expression of a token list; [stack] holds the open
    lists, innermost first, each in reverse. *)
Fixpoint read (stack : list (list SExpr)) (ts : list Token) : jsstring + SExpr :=
  match ts with
  | [] => inl (js "unexpected end of input")
  | TOpen :: ts' => read ([] :: stack) ts'
  | TClose :: ts' =>
      match stack with
      | [] => inl (js "unexpected )")
      | [top] => inr (SList (rev top))
      | top :: parent :: stack' => read ((SList (rev top) :: parent) :: stack') ts'
      end
  | TAtom a :: ts' =>
      match stack with
      | [] => inr (Atom a)
      | top :: stack' => read ((Atom a :: top) :: stack') ts'
      end
  end.

End Reader.

(** Modelled from the spec: [parseSExpr] of [./util] is not among the
    sources.  It is the "generic symbolic-expression tokenizer/parser" that
    "turns solver text into a tree" of "atoms and ordered lists": atoms are
    separated by white space and parentheses, a double-quoted literal is one
    atom and keeps its quotes, and the first complete expression is the
    result.  [inl msg] stands for a thrown [Error] with that message. *)
Definition parseSExpr (input : jsstring) : jsstring + SExpr :=
  Reader.read [] (Reader.tokenize Reader.Idle input).

(** ** Errors and results *)

(** [Options] of [options.ts]; the decoder reads [filename] only. *)
Record Options : Type := {
  filename : jsstring;
  z3path : jsstring;
  remote : bool;
  z3url : jsstring;
  qi : bool;
  timeout : Z;
  logformat : jsstring;
  quiet : bool;
  verbose : bool;
  logsmt : jsstring;
  maxInterpreterSteps : Z
}.

Definition defaultOptions : Options := {|
  filename := js "";
  z3path := js "z3";
  remote := false;
  z3url := js "/z3";
  qi := true;
  timeout := 5;
  logformat := js "colored";
  quiet := true;
  verbose := false;
  logsmt := js "/tmp/vc.smt";
  maxInterpreterSteps := 10000
|}.

Record Position : Type := { line : Z; column : Z }.

Record SourceLocation : Type := {
  file : jsstring;
  start : Position;
  end_ : Position
}.

(** The payload of a [MessageException]. *)
Record Message : Type := {
  status : jsstring;
  type : jsstring;
  loc : SourceLocation;
  description : jsstring
}.

(** What a call can throw: the structured failure built by [modelError], or
    a native [TypeError] or [RangeError] of the runtime. *)
Inductive Exn : Type :=
| MessageException (msg : Message)
| TypeError
| RangeError.

(** The outcome of a call: a value, a thrown exception, or [Diverge] when
    the fuel of a possibly non-terminating resolution is used up. *)
Inductive Result (A : Type) : Type :=
| Ret (a : A)
| Throw (e : Exn)
| Diverge.
Arguments Ret {A} a.
Arguments Throw {A} e.
Arguments Diverge {A}.

Definition bind {A B : Type} (m : Result A) (k : A -> Result B) : Result B :=
  match m with
  | Ret a => k a
  | Throw e => Throw e
  | Diverge => Diverge
  end.

Notation "x <- m ;; k" := (bind m (fun x => k))
  (at level 100, m at level 99, k at level 200, right associativity).
Notation "m ;;; k" := (bind m (fun _ => k))
  (at level 100, k at level 200, right associativity).

Section Traversals.
Context {A B S : Type}.
Variable f : A -> Result B.
Variable g : S -> A -> Result S.

(** [l.map(f)] where [f] can throw: elements are visited left to right. *)
Fixpoint mapM (l : list A) : Result (list B) :=
  match l with
  | [] => Ret []
  | a :: l' => b <- f a ;; bs <- mapM l' ;; Ret (b :: bs)
  end.

(** [l.forEach(g)] where [g] updates a state and can throw. *)
Fixpoint foldM (s : S) (l : list A) : Result S :=
  match l with
  | [] => Ret s
  | a :: l' => s' <- g s a ;; foldM s' l'
  end.
End Traversals.

(** ** Syntax built by the decoder (the interface of [./javascript]) *)

(** Modelled from the spec: the syntax tree of [./javascript] is not among
    the sources.  These are the node kinds this file builds, "source-level
    function syntax" included; the [loc] field, always [nullLoc()], and the
    constant fields of a function expression ([id: null], empty [requires],
    [ensures] and [freeVars]) are left out.  [NoExpression] is the value
    [undefined] in a place where an expression is expected. *)
Inductive LiteralValue : Type :=
| LNumber (v : number)
| LBoolean (v : bool)
| LString (v : jsstring)
| LNull
| LUndefined.

Inductive Expression : Type :=
| Literal (value : LiteralValue)
| Identifier (name : jsstring)
| BinaryExpression (operator : jsstring) (left right : Expression)
| LogicalExpression (operator : jsstring) (left right : Expression)
| ObjectExpression (properties : list (jsstring * Expression))
| NewExpression (callee : Expression) (args : list Expression)
| ArrayExpression (elements : list Expression)
| FunctionExpression (params : list Expression) (body : Statement)
| NoExpression
with Statement : Type :=
| IfStatement (test : Expression) (consequent alternate : Statement)
| ReturnStatement (argument : Expression)
| BlockStatement (body : list Statement).

(** [id(name)]. *)
Definition id (name : jsstring) : Expression := Identifier name.

(** ** Values *)

(** The tagged objects of the decoder.  [JSVal.Value] is the part without
    the last four tags; [LazyValue] has no [Fun], [Arr] or [Loc]. *)
Inductive Value : Type :=
| Num (v : number)
| Bool (v : bool)
| Str (v : jsstring)
| Null
| Undefined
| Fun (body : Expression)
| Obj (v : list (jsstring * Value))
| ObjCls (cls : jsstring) (args : list Value)
| Arr (elems : list Value)
| ArrRef (name : jsstring)
| ObjRef (name : jsstring)
| FunRef (name : jsstring)
| Loc (name : jsstring).

(** The static type [JSVal]: no reference tag anywhere in the tree. *)
Fixpoint isJSVal (val : Value) : bool :=
  match val with
  | Num _ | Bool _ | Str _ | Null | Undefined | Fun _ => true
  | Obj v => forallb (fun p => isJSVal (snd p)) v
  | ObjCls _ args => forallb isJSVal args
  | Arr elems => forallb isJSVal elems
  | ArrRef _ | ObjRef _ | FunRef _ | Loc _ => false
  end.

(** The static type [LazyValue]. *)
Fixpoint isLazyValue (val : Value) : bool :=
  match val with
  | Num _ | Bool _ | Str _ | Null | Undefined => true
  | Obj v => forallb (fun p => isJSVal (snd p)) v
  | ObjCls _ args => forallb isLazyValue args
  | ArrRef _ | ObjRef _ | FunRef _ => true
  | Fun _ | Arr _ | Loc _ => false
  end.

(** One branch of a function table: [{ cond, ret }]. *)
Record Branch : Type := { cond : list Value; ret : Value }.

(** [LazyFun]: the ordered branches of one function at one arity; [fbody]
    is its field [body]. *)
Record LazyFun : Type := { fbody : list Branch }.

(** A plain object as a map: its own properties in the order of
    [Object.keys], array indices first in ascending order, then the other
    keys in insertion order. *)
Module JSObject.

(** The array index a key stands for: a canonical numeral below 2^32 - 1. *)
Definition array_index (key : jsstring) : option N :=
  match key with
  | [] => None
  | c :: rest =>
      if forallb (fun d => (48 <=? d) && (d <=? 57))%N key
         && negb ((c =? 48)%N && negb (Nat.eqb (length rest) 0))
         && (length key <=? 10)%nat
      then
        let n := digits_value 10 (List.map (fun d => (d - 48)%N) key) in
        if (n <? 4294967295)%N then Some n else None
      else None
  end.

Definition before (key key' : jsstring) : bool :=
  match array_index key, array_index key' with
  | Some i, Some i' => (i <? i')%N
  | Some _, None => true
  | None, _ => false
  end.

(** [o[key] = x]. *)
Fixpoint set {A : Type} (key : jsstring) (x : A) (o : list (jsstring * A)) :
  list (jsstring * A) :=
  match o with
  | [] => [(key, x)]
  | (key', x') :: o' =>
      if str_eqb key key' then (key, x) :: o'
      else if before key key' then (key, x) :: o
      else (key', x') :: set key x o'
  end.

End JSObject.

(** [new Set(l)]: the elements of [l] in order of first occurrence. *)
Fixpoint new_Set (l : list jsstring) : list jsstring :=
  match l with
  | [] => []
  | s :: l' => s :: List.filter (fun t => negb (str_eqb t s)) (new_Set l')
  end.

(** ** The model *)

Definition ArrLengths := jsstring -> jsint.
Definition ArrElems := jsstring -> Z -> Value.
Definition ObjProperties := jsstring -> jsstring.
Definition ObjFields := jsstring -> jsstring -> Value.
Definition HeapMapping := jsstring -> Value.

(** The fields of [Model].  A reference ([ArrRef], [ObjRef], [Loc]) is
    passed to a table by its name, the only field a table reads.  The sparse
    arrays [heaps], [funDefaults] and the per-function blocks are maps from
    the index. *)
Record Model : Type := {
  arrLengths : option ArrLengths;
  arrElems : option ArrElems;
  objProperties : option ObjProperties;
  objPropertyMappings : gmap jsstring (list jsstring);
  objFields : option ObjFields;
  heapMappings : gmap jsstring HeapMapping;
  vars : gmap jsstring Value;
  locs : gmap jsstring jsstring;
  heaps : gmap jsint jsstring;
  funs : gmap jsstring (gmap jsint LazyFun);
  funDefaults : gmap jsint Value
}.

(** The field initialisers of the class. *)
Definition Model_init : Model := {|
  arrLengths := None;
  arrElems := None;
  objProperties := None;
  objPropertyMappings := ∅;
  objFields := None;
  heapMappings := ∅;
  vars := ∅;
  locs := ∅;
  heaps := ∅;
  funs := ∅;
  funDefaults := ∅
|}.

Definition set_arrLengths (f : ArrLengths) (m : Model) : Model :=
  {| arrLengths := Some f; arrElems := arrElems m; objProperties := objProperties m;
     objPropertyMappings := objPropertyMappings m; objFields := objFields m;
     heapMappings := heapMappings m; vars := vars m; locs := locs m;
     heaps := heaps m; funs := funs m; funDefaults := funDefaults m |}.

Definition set_arrElems (f : ArrElems) (m : Model) : Model :=
  {| arrLengths := arrLengths m; arrElems := Some f; objProperties := objProperties m;
     objPropertyMappings := objPropertyMappings m; objFields := objFields m;
     heapMappings := heapMappings m; vars := vars m; locs := locs m;
     heaps := heaps m; funs := funs m; funDefaults := funDefaults m |}.

Definition set_objProperties (f : ObjProperties) (m : Model) : Model :=
  {| arrLengths := arrLengths m; arrElems := arrElems m; objProperties := Some f;
     objPropertyMappings := objPropertyMappings m; objFields := objFields m;
     heapMappings := heapMappings m; vars := vars m; locs := locs m;
     heaps := heaps m; funs := funs m; funDefaults := funDefaults m |}.

Definition set_objPropertyMappings (x : gmap jsstring (list jsstring)) (m : Model) : Model :=
  {| arrLengths := arrLengths m; arrElems := arrElems m; objProperties := objProperties m;
     objPropertyMappings := x; objFields := objFields m;
     heapMappings := heapMappings m; vars := vars m; locs := locs m;
     heaps := heaps m; funs := funs m; funDefaults := funDefaults m |}.

Definition set_objFields (f : ObjFields) (m : Model) : Model :=
  {| arrLengths := arrLengths m; arrElems := arrElems m; objProperties := objProperties m;
     objPropertyMappings := objPropertyMappings m; objFields := Some f;
     heapMappings := heapMappings m; vars := vars m; locs := locs m;
     heaps := heaps m; funs := funs m; funDefaults := funDefaults m |}.

Definition set_heapMappings (x : gmap jsstring HeapMapping) (m : Model) : Model :=
  {| arrLengths := arrLengths m; arrElems := arrElems m; objProperties := objProperties m;
     objPropertyMappings := objPropertyMappings m; objFields := objFields m;
     heapMappings := x; vars := vars m; locs := locs m;
     heaps := heaps m; funs := funs m; funDefaults := funDefaults m |}.

Definition set_vars (x : gmap jsstring Value) (m : Model) : Model :=
  {| arrLengths := arrLengths m; arrElems := arrElems m; objProperties := objProperties m;
     objPropertyMappings := objPropertyMappings m; objFields := objFields m;
     heapMappings := heapMappings m; vars := x; locs := locs m;
     heaps := heaps m; funs := funs m; funDefaults := funDefaults m |}.

Definition set_locs (x : gmap jsstring jsstring) (m : Model) : Model :=
  {| arrLengths := arrLengths m; arrElems := arrElems m; objProperties := objProperties m;
     objPropertyMappings := objPropertyMappings m; objFields := objFields m;
     heapMappings := heapMappings m; vars := vars m; locs := x;
     heaps := heaps m; funs := funs m; funDefaults := funDefaults m |}.

Definition set_heaps (x : gmap jsint jsstring) (m : Model) : Model :=
  {| arrLengths := arrLengths m; arrElems := arrElems m; objProperties := objProperties m;
     objPropertyMappings := objPropertyMappings m; objFields := objFields m;
     heapMappings := heapMappings m; vars := vars m; locs := locs m;
     heaps := x; funs := funs m; funDefaults := funDefaults m |}.

Definition set_funs (x : gmap jsstring (gmap jsint LazyFun)) (m : Model) : Model :=
  {| arrLengths := arrLengths m; arrElems := arrElems m; objProperties := objProperties m;
     objPropertyMappings := objPropertyMappings m; objFields := objFields m;
     heapMappings := heapMappings m; vars := vars m; locs := locs m;
     heaps := heaps m; funs := x; funDefaults := funDefaults m |}.

Definition set_funDefaults (x : gmap jsint Value) (m : Model) : Model :=
  {| arrLengths := arrLengths m; arrElems := arrElems m; objProperties := objProperties m;
     objPropertyMappings := objPropertyMappings m; objFields := objFields m;
     heapMappings := heapMappings m; vars := vars m; locs := locs m;
     heaps := heaps m; funs := funs m; funDefaults := x |}.

(** ** The decoder *)

(** A capture read where a string is expected ([m.name as string]); a name
    capture is always an atom, another expression would print itself. *)
Definition as_string (e : option SExpr) : jsstring :=
  match e with
  | Some x => SExpr_toString x
  | None => js "undefined"
  end.

(** [s === e] for a string [s] and a capture [e]. *)
Definition is_atom (e : option SExpr) (s : jsstring) : bool :=
  match e with
  | Some (Atom a) => str_eqb s a
  | _ => false
  end.

(** [[...Array(n)]] as the list of its indices; [Array(n)] throws a
    [RangeError] unless [n] is an integer in [0, 2^32). *)
Definition array_indices (n : jsint) : Result (list Z) :=
  match n with
  | Some z =>
      if (0 <=? z) && (z <? 4294967296) then Ret (List.map Z.of_nat (seq 0 (Z.to_nat z)))
      else Throw RangeError
  | None => Throw RangeError
  end.

(** The replacement [/\\x(\d\d)/g -> String.fromCharCode(parseInt(c, 16))]. *)
Definition is_decimal_digit (c : N) : bool := ((48 <=? c) && (c <=? 57))%N.

Fixpoint replace_escapes (s : jsstring) : jsstring :=
  match s with
  | [] => []
  | c :: rest =>
      match rest with
      | x :: d1 :: d2 :: s' =>
          if (c =? 92)%N && (x =? 120)%N && is_decimal_digit d1 && is_decimal_digit d2
          then fromCharCode (parseInt [d1; d2] 16) ++ replace_escapes s'
          else c :: replace_escapes rest
      | _ => c :: replace_escapes rest
      end
  end.

Section Decoder.

(** [getOptions()], the configuration in force when an error is built. *)
Variable options : Options.

Definition modelError (smt : jsstring) : Exn :=
  MessageException {|
    status := js "error";
    type := js "unrecognized-model";
    loc := {| file := filename options;
              start := {| line := 0; column := 0 |};
              end_ := {| line := 0; column := 0 |} |};
    description := js "cannot parse smt " ++ smt
  |}.

(** [v[0] === op]. *)
Definition head_is (op : SExpr) (s : string) : bool :=
  match op with
  | Atom a => str_eqb a (js s)
  | SList _ => false
  end.

(** [parseNum]; the result is the [v] field of the [JSVal.Num] built.  The
    tests on the operator and on the length are grouped by length. *)
Fixpoint parseNum (v : SExpr) : Result number :=
  match v with
  | Atom s =>
      let num := parseFloat s in
      if negb (isNaN num) then Ret num
      else
        let hexNum := parseIntNumber (substr_from 2 s) 16 in
        if startsWith s (js "#x") && negb (isNaN hexNum) then Ret hexNum
        else
          let binNum := parseIntNumber (substr_from 2 s) 2 in
          if startsWith s (js "#b") && negb (isNaN binNum) then Ret binNum
          else Throw (modelError (js "cannot parse number " ++ s))
  | SList [] => Throw (modelError (js "cannot parse number " ++ SExpr_toString v))
  | SList [op; a] =>
      if head_is op "-" then num <- parseNum a ;; Ret (neg num)
      else if head_is op "to_real" then num <- parseNum a ;; Ret num
      else if head_is op "to_int" then num <- parseNum a ;; Ret (floor num)
      else Throw (modelError (js "cannot parse number expression " ++ JSON.stringify v))
  | SList [op; a; b] =>
      if head_is op "/" then n <- parseNum a ;; d <- parseNum b ;; Ret (div n d)
      else if head_is op "*" then l <- parseNum a ;; r <- parseNum b ;; Ret (mul l r)
      else if head_is op "+" then l <- parseNum a ;; r <- parseNum b ;; Ret (add l r)
      else Throw (modelError (js "cannot parse number expression " ++ JSON.stringify v))
  | SList _ => Throw (modelError (js "cannot parse number expression " ++ JSON.stringify v))
  end.

(** [parseCharCode]: a number (NaN included) or [null]. *)
Definition parseCharCode (v : SExpr) : option jsint :=
  match v with
  | Atom s =>
      match parseInt s 10 with
      | Some num => Some (Int num)
      | None => None
      end
  | SList [Atom c; Atom charLit] =>
      if str_eqb c (js "char") then
        if startsWith charLit (js "#x") then Some (parseInt (substr_from 2 charLit) 16)
        else if startsWith charLit (js "#b") then Some (parseInt (substr_from 2 charLit) 2)
        else None
      else None
  | SList _ => None
  end.

(** [parseStringValue]: the decoded text, or [null]. *)
Fixpoint parseStringValue (v : SExpr) : option jsstring :=
  match v with
  | Atom s =>
      if startsWith s dquote && endsWith s dquote then
        let vchars := strip_ends s in
        Some (replace_escapes vchars)
      else if str_eqb s (dquote ++ dquote) then Some []
      else None
  | SList [] => None
  | SList (op :: args) =>
      if head_is op "str.++" then
        (fix loop (result : jsstring) (parts : list SExpr) : option jsstring :=
           match parts with
           | [] => Some result
           | p :: parts' =>
               match parseStringValue p with
               | None => None
               | Some part => loop (result ++ part) parts'
               end
           end) [] args
      else if head_is op "seq.unit" || head_is op "str.from_code" then
        match args with
        | [a] =>
            match parseCharCode a with
            | None => None
            | Some charCode => Some (fromCharCode charCode)
            end
        | _ => None
        end
      else None
  end.

(** [tryParseSimpleValue]: a scalar, [null], or the error of [parseNum]. *)
Definition tryParseSimpleValue (s : SExpr) : Result (option Value) :=
  match s with
  | Atom a =>
      if str_eqb a (js "jsundefined") then Ret (Some Undefined)
      else if str_eqb a (js "jsnull") then Ret (Some Null)
      else Ret None
  | SList [] => Ret None
  | SList (SList _ :: _) => Ret None
  | SList (Atom tag :: rest) =>
      if str_eqb tag (js "jsbool") then
        match rest with
        | [Atom v] => Ret (Some (Bool (str_eqb v (js "true"))))
        | _ => Ret None
        end
      else if str_eqb tag (js "jsint") || str_eqb tag (js "jsreal") then
        match rest with
        | [n] => num <- parseNum n ;; Ret (Some (Num num))
        | _ => Ret None
        end
      else if str_eqb tag (js "jsstr") then
        match rest with
        | [v] =>
            match parseStringValue v with
            | None => Ret None
            | Some strValue => Ret (Some (Str strValue))
            end
        | _ => Ret None
        end
      else Ret None
  end.

(** [parseLazyValue]. *)
Fixpoint parseLazyValue (s : SExpr) : Result Value :=
  match s with
  | Atom a =>
      if str_eqb a (js "jsundefined") then Ret Undefined
      else if str_eqb a (js "jsnull") then Ret Null
      else if startsWith a (js "jsobj_") then Ret (ObjCls (substr_from 6 a) [])
      else if startsWith a (js "Arr!") then Ret (ArrRef a)
      else Throw (modelError a)
  | SList [] => Throw (modelError (SExpr_toString s))
  | SList (SList t :: _) => Throw (modelError (SExpr_toString (SList t)))
  | SList (Atom tag :: rest) =>
      if str_eqb tag (js "jsbool") then
        match rest with
        | [Atom v] => Ret (Bool (str_eqb v (js "true")))
        | _ => Throw (modelError (SExpr_toString s))
        end
      else if str_eqb tag (js "jsint") || str_eqb tag (js "jsreal") then
        match rest with
        | [n] => num <- parseNum n ;; Ret (Num num)
        | _ => Throw (modelError (SExpr_toString s))
        end
      else if str_eqb tag (js "jsstr") then
        match rest with
        | [v] =>
            match parseStringValue v with
            | None => Throw (modelError (js "cannot parse string value"))
            | Some strValue => Ret (Str strValue)
            end
        | _ => Throw (modelError (SExpr_toString s))
        end
      else if str_eqb tag (js "jsfun") then
        match rest with
        | [Atom v] => Ret (FunRef v)
        | _ => Throw (modelError (SExpr_toString s))
        end
      else if str_eqb tag (js "jsobj") then
        match rest with
        | [Atom v] => Ret (ObjRef v)
        | _ => Throw (modelError (SExpr_toString s))
        end
      else if str_eqb tag (js "jsobj_Array") then
        match rest with
        | [Atom v] => Ret (ArrRef v)
        | _ => Throw (modelError (SExpr_toString s))
        end
      else if startsWith tag (js "jsobj_") then
        args <- mapM parseLazyValue rest ;;
        Ret (ObjCls (substr_from 6 tag) args)
      else Throw (modelError tag)
  end.

(** *** Conditional chains

    The templates of the chain decoders.  A match of one of them binds
    [then] and [els] to the third and fourth element of the expression; the
    decoders below reach these two by taking the list apart, so that the
    recursion is structural. *)
Definition ite_eq (n : string) : SExprPattern :=
  PList [PLit (js "ite");
         PList [PLit (js "="); PLit (js "x!0"); PName n];
         PExpr "then"; PExpr "els"].

Definition ite_and (n0 n1 : string) : SExprPattern :=
  PList [PLit (js "ite");
         PList [PLit (js "and");
                PList [PLit (js "="); PLit (js "x!0"); PName n0];
                PList [PLit (js "="); PLit (js "x!1"); PName n1]];
         PExpr "then"; PExpr "els"].

Definition ite_group : SExprPattern :=
  PList [PLit (js "ite"); PGroup "cond"; PExpr "then"; PExpr "els"].

Definition as_array : SExprPattern :=
  PList [PLit (js "_"); PLit (js "as-array"); PName "name"].

(** [parseHeap]. *)
Definition parseHeap (smt : SExpr) : Result jsstring :=
  match matchSExpr smt as_array with
  | None => Throw (modelError (js "expected (_ as-array $name)"))
  | Some m => Ret (as_string (capture m "name"))
  end.

(** [parseHeapMapping]. *)
Fixpoint parseHeapMapping (smt : SExpr) : Result HeapMapping :=
  match matchSExpr smt (ite_eq "loc"), smt with
  | Some iteMatch, SList [_; _; then_; els_] =>
      then' <- parseHeapMapping then_ ;;
      els <- parseHeapMapping els_ ;;
      Ret (fun loc => if is_atom (capture iteMatch "loc") loc then then' loc else els loc)
  | Some _, _ => Throw TypeError
  | None, _ =>
      val <- parseLazyValue smt ;;
      Ret (fun _ => val)
  end.

(** [parseArrayLengths]. *)
Fixpoint parseArrayLengths (smt : SExpr) : Result ArrLengths :=
  match matchSExpr smt (ite_eq "arr"), smt with
  | Some iteMatch, SList [_; _; then_; els_] =>
      then' <- parseArrayLengths then_ ;;
      els <- parseArrayLengths els_ ;;
      Ret (fun arrRef => if is_atom (capture iteMatch "arr") arrRef then then' arrRef else els arrRef)
  | Some _, _ => Throw TypeError
  | None, Atom s => Ret (fun _ => parseInt s 10)
  | None, SList _ => Throw (modelError (js "expected num"))
  end.

(** [parseArrayElems]. *)
Fixpoint parseArrayElems (smt : SExpr) : Result ArrElems :=
  match matchSExpr smt (ite_and "arr" "i"), smt with
  | Some iteMatch, SList [_; _; then_; els_] =>
      then' <- parseArrayElems then_ ;;
      els <- parseArrayElems els_ ;;
      let arr := capture iteMatch "arr" in
      let i := parseInt (as_string (capture iteMatch "i")) 10 in
      Ret (fun arrRef idx =>
             if is_atom arr arrRef && bool_decide (Int idx = i)
             then then' arrRef idx else els arrRef idx)
  | Some _, _ => Throw TypeError
  | None, _ =>
      val <- parseLazyValue smt ;;
      Ret (fun _ _ => val)
  end.

(** [parseObjectProperties]. *)
Fixpoint parseObjectProperties (smt : SExpr) : Result ObjProperties :=
  match matchSExpr smt (ite_eq "obj"), smt with
  | Some iteMatch, SList [_; _; then_; els_] =>
      then' <- parseObjectProperties then_ ;;
      els <- parseObjectProperties els_ ;;
      Ret (fun objRef => if is_atom (capture iteMatch "obj") objRef then then' objRef else els objRef)
  | Some _, _ => Throw TypeError
  | None, _ =>
      match matchSExpr smt as_array with
      | None => Throw (modelError (js "expected (_ as-array $name)"))
      | Some asArrayMatch => Ret (fun _ => as_string (capture asArrayMatch "name"))
      end
  end.

(** The text of a key literal: an atom loses its quotes, another
    expression goes through [parseStringValue]. *)
Definition key_text (e : option SExpr) : option jsstring :=
  match e with
  | Some (Atom prop) =>
      if (2 <=? length prop)%nat && startsWith prop dquote && endsWith prop dquote
      then Some (strip_ends prop) else None
  | Some other => parseStringValue other
  | None => None
  end.

(** [parsePropertyMapping]: a set of names in insertion order, or [null]. *)
Fixpoint parsePropertyMapping (smt : SExpr) : Result (option (list jsstring)) :=
  match matchSExpr smt (ite_eq "prop"), smt with
  | Some iteMatch, SList [_; _; then_; els_] =>
      then' <- parsePropertyMapping then_ ;;
      els <- parsePropertyMapping els_ ;;
      match key_text (capture iteMatch "prop") with
      | None => Throw (modelError (js "expected string in property mapping"))
      | Some propStr =>
          match then', els with
          | None, _ => Ret els
          | Some t, None => Ret (Some (new_Set (propStr :: t)))
          | Some t, Some e => Ret (Some (new_Set (propStr :: t ++ e)))
          end
      end
  | Some _, _ => Throw TypeError
  | None, Atom s =>
      if str_eqb s (js "true") then Ret (Some [])
      else if str_eqb s (js "false") then Ret None
      else Throw (modelError (js "expected (true)"))
  | None, SList _ => Throw (modelError (js "expected (true)"))
  end.

(** [parseObjectFields]. *)
Fixpoint parseObjectFields (smt : SExpr) : Result ObjFields :=
  match matchSExpr smt (ite_and "obj" "s"), smt with
  | Some iteMatch, SList [_; _; then_; els_] =>
      then' <- parseObjectFields then_ ;;
      els <- parseObjectFields els_ ;;
      let arr := capture iteMatch "obj" in
      match key_text (capture iteMatch "s") with
      | None => Throw (modelError (js "expected string in object field"))
      | Some strValue =>
          Ret (fun objRef prop =>
                 if is_atom arr objRef && str_eqb prop strValue
                 then then' objRef prop else els objRef prop)
      end
  | Some _, _ => Throw TypeError
  | None, _ =>
      val <- parseLazyValue smt ;;
      Ret (fun _ _ => val)
  end.

(** *** Function tables *)

Definition fun_identity : SExprPattern :=
  PList [PLit (js "="); PLit (js "x!0"); PList [PLit (js "jsfun"); PName "func"]].

(** The template of the argument condition at position [idx] of the
    conjunction: [['=', `x!${idx - 1}`, { expr: 'val' }]]. *)
Definition arg_equality (idx : Z) : SExprPattern :=
  PList [PLit (js "="); PLit (js "x!" ++ JSString.of_Z (idx - 1)); PExpr "val"].

(** The loop over the argument conditions, from position [idx] on:
    [Some fullCond] when every condition gave a value, [None] when one
    gave [null] and the branch is given up. *)
Fixpoint parseConds (idx : Z) (conds : list SExpr) (fullCond : list Value) :
  Result (option (list Value)) :=
  match conds with
  | [] => Ret (Some fullCond)
  | c :: conds' =>
      match matchSExpr c (arg_equality idx) with
      | None => Throw (modelError (js "expected (= x!idx $val)"))
      | Some condMatch =>
          match capture condMatch "val" with
          | None => Throw TypeError
          | Some val =>
              matchVal <- tryParseSimpleValue val ;;
              match matchVal with
              | None => Ret None
              | Some x => parseConds (idx + 1) conds' (fullCond ++ [x])
              end
          end
      end
  end.

(** [funcName in this.funs ? this.funs[funcName] : (this.funs[funcName] = [])]
    followed by the same for [numArgs] in the blocks: the model with both
    entries present, and the function found there. *)
Definition ensure_fun (funcName : jsstring) (numArgs : jsint) (m : Model) : Model * LazyFun :=
  let funcBlocks := default ∅ (funs m !! funcName) in
  let fun_ := default {| fbody := [] |} (funcBlocks !! numArgs) in
  (set_funs (<[funcName := <[numArgs := fun_]> funcBlocks]> (funs m)) m, fun_).

(** [fun.body.unshift(branch)] on the function of [funcName] at [numArgs]. *)
Definition unshift_branch (funcName : jsstring) (numArgs : jsint) (br : Branch) (m : Model) : Model :=
  let funcBlocks := default ∅ (funs m !! funcName) in
  let fun_ := default {| fbody := [] |} (funcBlocks !! numArgs) in
  set_funs (<[funcName := <[numArgs := {| fbody := br :: fbody fun_ |}]> funcBlocks]> (funs m)) m.

(** [parseFunctions]; the model is the state it updates. *)
Fixpoint parseFunctions (smt : SExpr) (numArgs : jsint) (m : Model) : Result Model :=
  match matchSExpr smt ite_group, smt with
  | None, _ =>
      val <- parseLazyValue smt ;;
      Ret (set_funDefaults (<[numArgs := val]> (funDefaults m)) m)
  | Some iteMatch, SList [_; SList condList; then_; els_] =>
      m1 <- parseFunctions els_ numArgs m ;;
      match condList with
      | and :: c1 :: _ :: _ =>
          if negb (head_is and "and") then Throw (modelError (js "expected (and ...)"))
          else
            match matchSExpr c1 fun_identity with
            | None => Ret m1
            | Some funcMatch =>
                let funcName := as_string (capture funcMatch "func") in
                let '(m2, _) := ensure_fun funcName numArgs m1 in
                fullCond <- parseConds 4 (drop 4 condList) [] ;;
                match fullCond with
                | None => Ret m2
                | Some fullCond =>
                    then' <- parseLazyValue then_ ;;
                    Ret (unshift_branch funcName numArgs {| cond := fullCond; ret := then' |} m2)
                end
            end
      | _ => Throw (modelError (js "expected (and ...)"))
      end
  | Some _, _ => Throw TypeError
  end.

(** *** Definitions *)

Definition define_fun : SExprPattern :=
  PList [PLit (js "define-fun"); PName "name"; PGroup "args"; PExpr "return"; PExpr "body"].

Definition heap_shape : SExprPattern :=
  PList [PLit (js "define-fun"); PName "name";
         PList [PList [PLit (js "x!0"); PLit (js "Loc")]];
         PLit (js "JSVal"); PExpr "body"].

Definition properties_shape : SExprPattern :=
  PList [PLit (js "define-fun"); PName "name";
         PList [PList [PLit (js "x!0"); PLit (js "String")]];
         PLit (js "Bool"); PExpr "body"].

(** An expression capture that is read as an expression. *)
Definition expr_of (e : option SExpr) : Result SExpr :=
  match e with
  | Some x => Ret x
  | None => Throw TypeError
  end.

(** [parseDefinition]; the model is the state it updates. *)
Definition parseDefinition (data : SExpr) (m : Model) : Result Model :=
  match data with
  | Atom _ | SList [] => Throw (modelError (js "expected define-fun"))
  | SList _ =>
      match matchSExpr data define_fun with
      | None => Ret m
      | Some d =>
          let name := as_string (capture d "name") in
          (* [m.body], read once for all the cases: a match of the template
             always captures it *)
          body <- expr_of (capture d "body") ;;
          if startsWith name (js "v_") then
            val <- parseLazyValue body ;;
            Ret (set_vars (<[substr_from 2 name := val]> (vars m)) m)
          else if startsWith name (js "l_") then
            match body with
            | Atom locVal => Ret (set_locs (<[substr_from 2 name := locVal]> (locs m)) m)
            | SList _ => Throw (modelError (js "expected loc"))
            end
          else if startsWith name (js "h_") then
            alias <- parseHeap body ;;
            Ret (set_heaps (<[parseInt (substr_from 2 name) 10 := alias]> (heaps m)) m)
          else if str_eqb name (js "arrlength") then
            f <- parseArrayLengths body ;; Ret (set_arrLengths f m)
          else if str_eqb name (js "arrelems") then
            f <- parseArrayElems body ;; Ret (set_arrElems f m)
          else if str_eqb name (js "objproperties") then
            f <- parseObjectProperties body ;; Ret (set_objProperties f m)
          else if str_eqb name (js "objfield") then
            f <- parseObjectFields body ;; Ret (set_objFields f m)
          else if startsWith name (js "c_") then Ret m
          else if startsWith name (js "app") then
            parseFunctions body (parseInt (substr_from 3 name) 10) m
          else if startsWith name (js "pre") || startsWith name (js "post")
                  || startsWith name (js "eff") || startsWith name (js "call") then Ret m
          else
            match matchSExpr data heap_shape with
            | Some heapMatch =>
                hbody <- expr_of (capture heapMatch "body") ;;
                mapping <- parseHeapMapping hbody ;;
                Ret (set_heapMappings
                       (<[as_string (capture heapMatch "name") := mapping]> (heapMappings m)) m)
            | None =>
                match matchSExpr data properties_shape with
                | Some propertiesMatch =>
                    pbody <- expr_of (capture propertiesMatch "body") ;;
                    mapping <- parsePropertyMapping pbody ;;
                    Ret (set_objPropertyMappings
                           (<[as_string (capture propertiesMatch "name") := default [] mapping]>
                              (objPropertyMappings m)) m)
                | None => Throw (modelError (js "unexpected key: " ++ name))
                end
            end
      end
  end.

(** The constructor from the point where the text has been parsed: the
    checks on [data] and the pass over the definitions. *)
Definition Model_of_data (smt : jsstring) (data : SExpr) : Result Model :=
  match data with
  | Atom a => Throw (modelError a)
  | SList l =>
      if (length l <? 2)%nat then Throw (modelError smt)
      else
        match l with
        | Atom h :: defs =>
            if str_eqb h (js "model") then foldM (fun m s => parseDefinition s m) Model_init defs
            else Throw (modelError smt)
        | _ => Throw (modelError smt)
        end
  end.

(** [new Model(smt)].  The exception built for an [(error] body is not
    thrown: the statement has no [throw], and the constructor goes on. *)
Definition Model_new (smt : jsstring) : Result Model :=
  let smt2 := substr_from 3 smt in
  let _ := if startsWith (trim smt2) (js "(error") then Some (modelError (trim smt2)) else None in
  match parseSExpr (trim smt2) with
  | inl message => Throw (modelError message)
  | inr data => Model_of_data smt data
  end.

(** *** Hydration *)

(** [valueToJavaScript]; a tag outside [JSVal] matches no case of the
    switch and the call returns [undefined]. *)
Fixpoint valueToJavaScript (val : Value) : Expression :=
  match val with
  | Num v => Literal (LNumber v)
  | Bool v => Literal (LBoolean v)
  | Str v => Literal (LString v)
  | Null => Literal LNull
  | Undefined => Literal LUndefined
  | Fun body => body
  | Obj v => ObjectExpression (List.map (fun p => (fst p, valueToJavaScript (snd p))) v)
  | ObjCls cls args => NewExpression (id cls) (List.map valueToJavaScript args)
  | Arr elems => ArrayExpression (List.map valueToJavaScript elems)
  | ArrRef _ | ObjRef _ | FunRef _ | Loc _ => NoExpression
  end.

(** [l.reduceRight(f)] without an initial value, on a list that is not
    empty: the last element is the first accumulator. *)
Definition reduceRight {A : Type} (f : A -> A -> A) (l : list A) (dflt : A) : A :=
  match rev l with
  | [] => dflt
  | last :: before => fold_left f before last
  end.

(** The test of a branch: the conjunction of [x_i === cond_i]. *)
Definition branch_test (cond : list Value) : Expression :=
  reduceRight
    (fun prev curr => LogicalExpression (js "&&") curr prev)
    (List.map (fun p => BinaryExpression (js "===")
                          (id (js "x_" ++ JSString.of_Z (Z.of_nat (fst p))))
                          (valueToJavaScript (snd p)))
              (combine (seq 0 (length cond)) cond))
    NoExpression.

(** [hydrate]; [fuel] bounds the depth of the resolution.  In the case of a
    function reference, [Object.keys(funcBlocks)] is the list of the
    arities that have a block, and [numArgs], read back from the only key
    with [parseInt], is that arity. *)
Fixpoint hydrate (fuel : nat) (m : Model) (val : Value) : Result Value :=
  match fuel with
  | O => Diverge
  | S fuel' =>
      match val with
      | ObjCls cls args =>
          args' <- mapM (hydrate fuel' m) args ;;
          Ret (ObjCls cls args')
      | FunRef name =>
          match funs m !! name with
          | Some funcBlocks =>
              match map_to_list funcBlocks with
              | [(numArgs, fun_)] =>
                  st <- foldM
                          (fun (st : option Value * list Statement) (br : Branch) =>
                             match cond br with
                             | [] => Ret (Some (ret br), snd st)
                             | _ :: _ =>
                                 r <- hydrate fuel' m (ret br) ;;
                                 Ret (fst st,
                                      snd st ++
                                      [IfStatement (branch_test (cond br))
                                         (BlockStatement [ReturnStatement (valueToJavaScript r)])
                                         (BlockStatement [])])
                             end)
                          (funDefaults m !! numArgs, []) (fbody fun_) ;;
                  d <- match fst st with
                       | Some defaultVal => hydrate fuel' m defaultVal
                       | None => Throw TypeError
                       end ;;
                  let body := snd st ++ [ReturnStatement (valueToJavaScript d)] in
                  idxs <- array_indices numArgs ;;
                  Ret (Fun (FunctionExpression
                              (List.map (fun idx => id (js "x_" ++ JSString.of_Z idx)) idxs)
                              (BlockStatement body)))
              | _ => Throw (modelError (js "no support for variable argument functions"))
              end
          | None => Ret (Fun (FunctionExpression [] (BlockStatement [])))
          end
      | ArrRef name =>
          match arrLengths m with
          | None => Throw (modelError (js "no arrlength"))
          | Some lengths =>
              idxs <- array_indices (lengths name) ;;
              elems <- mapM
                         (fun i =>
                            match arrElems m with
                            | None => Throw (modelError (js "no arrelems"))
                            | Some elems => hydrate fuel' m (elems name i)
                            end) idxs ;;
              Ret (Arr elems)
          end
      | ObjRef name =>
          match objProperties m, objFields m with
          | None, _ => Throw (modelError (js "no objproperties"))
          | Some _, None => Throw (modelError (js "no objfields"))
          | Some properties, Some fields =>
              let objAlias := properties name in
              match objPropertyMappings m !! objAlias with
              | None => Throw (modelError (js "no mapping for " ++ properties name))
              | Some keys =>
                  obj <- foldM
                           (fun obj key =>
                              x <- hydrate fuel' m (fields name key) ;;
                              Ret (JSObject.set key x obj))
                           [] keys ;;
                  Ret (Obj obj)
              end
          end
      | _ => Ret val
      end
  end.


(** [this.heapMappings[this.heaps[heap]]]: a generation without an alias
    reads the property whose key is the text [undefined]. *)
Definition heap_of (m : Model) (heap : jsint) : option HeapMapping :=
  heapMappings m !! default (js "undefined") (heaps m !! heap).


End Decoder.

(** *** The names of a model *)



(** * Vocabulary of the statements *)

(** ** Specification functions *)

(** A quoted literal of the solver text. *)
Definition quoted (s : string) : jsstring := dquote ++ js s ++ dquote.

(** The model decoded from a solver text, for the examples. *)
Definition model_of (smt : jsstring) : Model :=
  match Model_new defaultOptions smt with
  | Ret m => m
  | _ => Model_init
  end.


(** The entries that pass the first test of [parseDefinition]. *)
Definition is_nonempty_list (d : SExpr) : bool :=
  match d with
  | SList (_ :: _) => true
  | _ => false
  end.

(** The chain [ite (= x!0 k1) t1 (ite (= x!0 k2) t2 (... leaf))]. *)
Fixpoint chain_eq (cases : list (jsstring * SExpr)) (leaf : SExpr) : SExpr :=
  match cases with
  | [] => leaf
  | c :: cases' =>
      SList [Atom (js "ite"); SList [Atom (js "="); Atom (js "x!0"); Atom (fst c)];
             snd c; chain_eq cases' leaf]
  end.

(** The chain on two keys,
    [ite (and (= x!0 a1) (= x!1 i1)) t1 (... leaf)]. *)
Fixpoint chain_and (cases : list (jsstring * jsstring * SExpr)) (leaf : SExpr) : SExpr :=
  match cases with
  | [] => leaf
  | c :: cases' =>
      SList [Atom (js "ite");
             SList [Atom (js "and");
                    SList [Atom (js "="); Atom (js "x!0"); Atom (fst (fst c))];
                    SList [Atom (js "="); Atom (js "x!1"); Atom (snd (fst c))]];
             snd c; chain_and cases' leaf]
  end.

(** The first case whose key is the key looked up, else the fallback. *)
Fixpoint first_match {A : Type} (key : jsstring) (cases : list (jsstring * A)) (fallback : A) : A :=
  match cases with
  | [] => fallback
  | c :: cases' => if str_eqb key (fst c) then snd c else first_match key cases' fallback
  end.

(** The same on an array name and an index; the index of a case is read
    with [parseInt]. *)
Fixpoint first_match2 {A : Type} (arr : jsstring) (idx : Z)
    (cases : list (jsstring * jsstring * A)) (fallback : A) : A :=
  match cases with
  | [] => fallback
  | c :: cases' =>
      if str_eqb arr (fst (fst c)) && bool_decide (Int idx = parseInt (snd (fst c)) 10)
      then snd c else first_match2 arr idx cases' fallback
  end.

(** Cases whose results are numerals, as in the array-length table. *)
Definition numerals (cases : list (jsstring * jsstring)) : list (jsstring * SExpr) :=
  List.map (fun c => (fst c, Atom (snd c))) cases.

(** One case of an application table: the function it belongs to, the
    conditions on [this] and on the heap, the conditions on the arguments
    (positions 4 and up of the conjunction) and the result. *)
Record Case : Type := {
  cfun : jsstring;
  cthis : SExpr;
  cheap : SExpr;
  cconds : list SExpr;
  cthen : SExpr
}.

(** The condition [(= x!(idx-1) val)] expected at position [idx]. *)
Definition arg_cond (idx : Z) (val : SExpr) : SExpr :=
  SList [Atom (js "="); Atom (js "x!" ++ JSString.of_Z (idx - 1)); val].

(** The conditions on the values [vals], from position [idx] on. *)
Fixpoint arg_conds (idx : Z) (vals : list SExpr) : list SExpr :=
  match vals with
  | [] => []
  | v :: vals' => arg_cond idx v :: arg_conds (idx + 1) vals'
  end.

(** The function-identity conjunct [(= x!0 (jsfun f))]. *)
Definition fun_cond (f : jsstring) : SExpr :=
  SList [Atom (js "="); Atom (js "x!0"); SList [Atom (js "jsfun"); Atom f]].

(** The conjunction of a case. *)
Definition case_cond (c : Case) : SExpr :=
  SList (Atom (js "and") :: fun_cond (cfun c) :: cthis c :: cheap c :: cconds c).

(** The expression [ite cond then els] of a case in front of [els]. *)
Definition branch_expr (c : Case) (els : SExpr) : SExpr :=
  SList [Atom (js "ite"); case_cond c; cthen c; els].

(** The application table of a list of cases, outermost first, with a
    final leaf. *)
Fixpoint app_chain (cases : list Case) (leaf : SExpr) : SExpr :=
  match cases with
  | [] => leaf
  | c :: cases' => branch_expr c (app_chain cases' leaf)
  end.

(** The branch list of function [f] at arity [n], empty when there is none. *)
Definition branches (m : Model) (f : jsstring) (n : jsint) : list Branch :=
  match funs m !! f with
  | Some funcBlocks =>
      match funcBlocks !! n with
      | Some fun_ => fbody fun_
      | None => []
      end
  | None => []
  end.

(** A case decodes to a branch: its argument conditions are the expected
    equalities, on values that are simple, and its result is a lazy value. *)
Definition case_decodes (o : Options) (c : Case) (br : Branch) : Prop :=
  (exists vals,
     cconds c = arg_conds 4 vals
     /\ Forall2 (fun s x => tryParseSimpleValue o s = Ret (Some x)) vals (cond br))
  /\ parseLazyValue o (cthen c) = Ret (ret br).

(** The branches of the cases that belong to [f], in the order of the
    cases. *)
Definition recorded (f : jsstring) (cases : list Case) (brs : list Branch) : list Branch :=
  List.map snd (List.filter (fun p => bool_decide (cfun (fst p) = f)) (combine cases brs)).

(** The table built from an application body at an arity, for the
    examples. *)
Definition table_of (smt : SExpr) (n : jsint) : Model :=
  match parseFunctions defaultOptions smt n Model_init with
  | Ret m => m
  | _ => Model_init
  end.

(** What the tables of a model hold are lazy values. *)
Record Model_wf (m : Model) : Prop := {
  wf_vars : map_Forall (fun _ val => isLazyValue val = true) (vars m);
  wf_arrElems : forall elems, arrElems m = Some elems ->
                forall arr idx, isLazyValue (elems arr idx) = true;
  wf_objFields : forall fields, objFields m = Some fields ->
                 forall obj prop, isLazyValue (fields obj prop) = true;
  wf_heapMappings : map_Forall (fun _ (heap : HeapMapping) =>
                                  forall l, isLazyValue (heap l) = true) (heapMappings m)
}.

(** [approx r1 r2]: the outcome [r2] is the outcome [r1] up to the payload
    of an exception, or [r1] ran out of fuel. *)
Definition approx {A : Type} (r1 r2 : Result A) : Prop :=
  match r1 with
  | Ret a => r2 = Ret a
  | Throw _ => exists e, r2 = Throw e
  | Diverge => True
  end.

(** ** Inputs of the examples *)


(** An output whose body is an error. *)
Definition text_error : jsstring := js "sat (error unavailable)".




(** An entry that is not a definition, and a definition of the variable
    [y]. *)
Definition entry_declare : SExpr := SList [Atom (js "declare-fun"); Atom (js "x")].
Definition entry_define : SExpr :=
  SList [Atom (js "define-fun"); Atom (js "v_y"); SList []; Atom (js "JSVal"); Atom (js "jsnull")].

(** A model with these two entries. *)
Definition text_declare : jsstring :=
  js "sat (model (declare-fun x) (define-fun v_y () JSVal jsnull))".

(** Two cases of the function [f!1], on the arguments [true] and [false]. *)
Definition case_three : Case := {|
  cfun := js "f!1";
  cthis := SList [Atom (js "="); Atom (js "x!1"); Atom (js "jsundefined")];
  cheap := SList [Atom (js "="); Atom (js "x!2"); Atom (js "0")];
  cconds := arg_conds 4 [SList [Atom (js "jsbool"); Atom (js "true")]];
  cthen := Atom (js "jsnull")
|}.

Definition case_four : Case := {|
  cfun := js "f!1";
  cthis := SList [Atom (js "="); Atom (js "x!1"); Atom (js "jsundefined")];
  cheap := SList [Atom (js "="); Atom (js "x!2"); Atom (js "0")];
  cconds := arg_conds 4 [SList [Atom (js "jsbool"); Atom (js "false")]];
  cthen := SList [Atom (js "jsobj"); Atom (js "Obj!0")]
|}.

(** A case whose argument condition compares with a lazy object reference,
    and one whose argument condition is an inequality. *)
Definition case_reference : Case := {|
  cfun := js "f!1";
  cthis := SList [Atom (js "="); Atom (js "x!1"); Atom (js "jsundefined")];
  cheap := SList [Atom (js "="); Atom (js "x!2"); Atom (js "0")];
  cconds := [arg_cond 4 (SList [Atom (js "jsobj"); Atom (js "Obj!0")])];
  cthen := Atom (js "jsnull")
|}.

Definition case_inequality : Case := {|
  cfun := js "f!1";
  cthis := SList [Atom (js "="); Atom (js "x!1"); Atom (js "jsundefined")];
  cheap := SList [Atom (js "="); Atom (js "x!2"); Atom (js "0")];
  cconds := [SList [Atom (js "<"); Atom (js "x!3"); SList [Atom (js "jsint"); Atom (js "3")]]];
  cthen := Atom (js "jsnull")
|}.

(** A model whose application table is the case with the inequality. *)
Definition text_inequality : jsstring :=
  js "sat (model (define-fun app1 ((x!0 JSVal) (x!1 JSVal) (x!2 Heap) (x!3 JSVal)) JSVal
        (ite (and (= x!0 (jsfun f!1)) (= x!1 jsundefined) (= x!2 0) (< x!3 (jsint 3)))
             jsnull jsundefined)))".



(** ** Further specification functions *)

(** The outcome [r] is not an exception outside [P]. *)
Definition throws_only {A : Type} (P : Exn -> Prop) (r : Result A) : Prop :=
  match r with
  | Throw e => P e
  | _ => True
  end.

(** The structured failure of the decoder, with some description. *)
Definition is_modelError (o : Options) (e : Exn) : Prop :=
  exists msg, e = modelError o msg.



(** The values without parts: numbers, booleans, strings, [null] and
    [undefined]. *)
Definition is_scalar (v : Value) : bool :=
  match v with
  | Num _ | Bool _ | Str _ | Null | Undefined => true
  | _ => false
  end.

(** The concrete values that hold no function: data. *)
Fixpoint is_data (val : Value) : bool :=
  match val with
  | Num _ | Bool _ | Str _ | Null | Undefined => true
  | Obj v => forallb (fun p => is_data (snd p)) v
  | ObjCls _ args => forallb is_data args
  | Arr elems => forallb is_data elems
  | Fun _ | ArrRef _ | ObjRef _ | FunRef _ | Loc _ => false
  end.

(** The literal of the solver text for the string [s]: [s] between double
    quotes. *)
Definition quote_literal (s : jsstring) : jsstring := dquote ++ s ++ dquote.

(** The atom [true] or [false]. *)
Definition bool_atom (b : bool) : SExpr := Atom (if b then js "true" else js "false").

(** The cases of a property-set chain: each names a property, as a quoted
    literal, and says whether it belongs to the set. *)
Definition property_cases (cases : list (jsstring * bool)) : list (jsstring * SExpr) :=
  List.map (fun c => (quote_literal (fst c), bool_atom (snd c))) cases.

(** The names of the cases that say [true]. *)
Definition members (cases : list (jsstring * bool)) : list jsstring :=
  List.map fst (List.filter snd cases).

(** [o[key]] on a plain object: the value of its own property [key], if it
    has one. *)
Fixpoint get_property {A : Type} (key : jsstring) (o : list (jsstring * A)) : option A :=
  match o with
  | [] => None
  | (key', x) :: o' => if str_eqb key key' then Some x else get_property key o'
  end.

(** The character of a digit value: [0] to [9], then [a] to [z]. *)
Definition digit_char (d : N) : N :=
  if (d <? 10)%N then (48 + d)%N else (87 + d)%N.

(** The numeral with the digit values [ds], most significant first. *)
Definition numeral (ds : list N) : jsstring := List.map digit_char ds.

(** The expression [(_ as-array alias)]. *)
Definition as_array_expr (alias : jsstring) : SExpr :=
  SList [Atom (js "_"); Atom (js "as-array"); Atom alias].

(** Cases whose results are aliases, as in the object-properties table. *)
Definition aliases (cases : list (jsstring * jsstring)) : list (jsstring * SExpr) :=
  List.map (fun c => (fst c, as_array_expr (snd c))) cases.

(** Cases on an object and a property name, the name written as a quoted
    literal. *)
Definition field_cases (cases : list (jsstring * jsstring * SExpr)) :
  list (jsstring * jsstring * SExpr) :=
  List.map (fun c => (fst (fst c), quote_literal (snd (fst c)), snd c)) cases.

(** The first case on the object and the property looked up, else the
    fallback. *)
Fixpoint first_field {A : Type} (obj prop : jsstring)
    (cases : list (jsstring * jsstring * A)) (fallback : A) : A :=
  match cases with
  | [] => fallback
  | c :: cases' =>
      if str_eqb obj (fst (fst c)) && str_eqb prop (snd (fst c))
      then snd c else first_field obj prop cases' fallback
  end.

(** The definition [(define-fun name (args) sort body)]. *)
Definition definition (name : jsstring) (args : list SExpr) (sort body : SExpr) : SExpr :=
  SList [Atom (js "define-fun"); Atom name; SList args; sort; body].








(** The equality [x_i === c] of a branch test. *)
Definition argument_test (i : nat) (c : Value) : Expression :=
  BinaryExpression (js "===") (id (js "x_" ++ JSString.of_Z (Z.of_nat i)))
    (valueToJavaScript c).

(** The conjunction of the equalities on the arguments from position [i]
    on, nested to the right. *)
Fixpoint conjunction (i : nat) (conds : list Value) : Expression :=
  match conds with
  | [] => NoExpression
  | [c] => argument_test i c
  | c :: (_ :: _) as conds' =>
      LogicalExpression (js "&&") (argument_test i c) (conjunction (S i) conds')
  end.

(** The nesting depth of class instances in a value. *)
Fixpoint height (val : Value) : nat :=
  match val with
  | ObjCls _ args => S (list_max (List.map height args))
  | _ => 0
  end.

(** ** Further inputs of the examples *)


(** An output whose body is not a model. *)
Definition text_unsat : jsstring := js "sat (unsupported)".

(** A model with one object, [Obj!0], whose property set is [{a}] and
    whose field [a] is [true]. *)
Definition text_object : jsstring :=
  js "sat (model (define-fun v_o () JSVal (jsobj Obj!0))
        (define-fun objproperties ((x!0 Obj)) Properties (_ as-array k!5))
        (define-fun k!5 ((x!0 String)) Bool (ite (= x!0 " ++ quoted "a" ++ js ") true false))
        (define-fun objfield ((x!0 Obj) (x!1 String)) JSVal
          (ite (and (= x!0 Obj!0) (= x!1 " ++ quoted "a" ++ js ")) (jsbool true) jsundefined)))".

(** The same with a field table that sends every field of every object to
    the object [Obj!0] itself. *)
Definition text_cycle : jsstring :=
  js "sat (model (define-fun v_o () JSVal (jsobj Obj!0))
        (define-fun objproperties ((x!0 Obj)) Properties (_ as-array k!5))
        (define-fun k!5 ((x!0 String)) Bool (ite (= x!0 " ++ quoted "a" ++ js ") true false))
        (define-fun objfield ((x!0 Obj) (x!1 String)) JSVal (jsobj Obj!0)))".



(** * Properties *)

(** ** General facts *)

Lemma str_eqb_eq (a b : jsstring) : str_eqb a b = true <-> a = b.
Proof. unfold str_eqb. apply bool_decide_eq_true. Qed.

Lemma str_eqb_refl (a : jsstring) : str_eqb a a = true.
Proof. by apply str_eqb_eq. Qed.

Lemma str_eqb_neq (a b : jsstring) : str_eqb a b = false <-> a <> b.
Proof. unfold str_eqb. apply bool_decide_eq_false. Qed.

Lemma bind_Ret {A B : Type} (m : Result A) (k : A -> Result B) (b : B) :
  bind m k = Ret b -> exists a, m = Ret a /\ k a = Ret b.
Proof. destruct m; simpl; intros H; try discriminate. eauto. Qed.

(** Take apart a hypothesis that says a computation returned. *)
Ltac invert_Ret :=
  repeat match goal with
  | H : Forall _ (_ :: _) |- _ => inversion H; subst; clear H
  | H : Ret _ = Ret _ |- _ => injection H as H; try subst
  | H : Throw _ = Ret _ |- _ => discriminate H
  | H : Diverge = Ret _ |- _ => discriminate H
  | H : bind ?m _ = Ret _ |- _ =>
      let a := fresh "a" in let Ha := fresh "Ha" in apply bind_Ret in H as (a & Ha & H)
  | H : (if ?b then _ else _) = Ret _ |- _ => destruct b eqn:?
  | H : match ?x with _ => _ end = Ret _ |- _ => destruct x eqn:?
  end.

Lemma mapM_Ret {A B : Type} (f : A -> Result B) (l : list A) (bs : list B) :
  mapM f l = Ret bs <-> Forall2 (fun a b => f a = Ret b) l bs.
Proof.
  revert bs. induction l as [|a l IH]; intros bs; simpl.
  - split.
    + intros [= <-]. constructor.
    + intros H. inversion H. reflexivity.
  - split.
    + intros H. apply bind_Ret in H as (b & Hb & H).
      apply bind_Ret in H as (bs' & Hbs & [= <-]).
      constructor; [exact Hb | by apply IH].
    + intros H. inversion H as [|? b ? bs' Hb Hbs]; subst.
      rewrite Hb. simpl. apply IH in Hbs. rewrite Hbs. reflexivity.
Qed.

Lemma foldM_app {A S : Type} (g : S -> A -> Result S) (s : S) (l1 l2 : list A) :
  foldM g s (l1 ++ l2) = (s' <- foldM g s l1 ;; foldM g s' l2).
Proof.
  revert s. induction l1 as [|a l1 IH]; intros s; simpl; [reflexivity|].
  destruct (g s a); simpl; auto.
Qed.

(** An invariant of the state is kept by a pass that returns. *)
Lemma foldM_invariant {A S : Type} (P : S -> Prop) (g : S -> A -> Result S) (l : list A) :
  (forall s a s', P s -> g s a = Ret s' -> P s') ->
  forall s s', P s -> foldM g s l = Ret s' -> P s'.
Proof.
  intros Hg. induction l as [|a l IH]; intros s s' Hs; simpl.
  - intros [= <-]. exact Hs.
  - intros H. apply bind_Ret in H as (s1 & H1 & H). eauto.
Qed.

(** Induction on an S-expression with the elements of a list at hand. *)
Lemma SExpr_nested_ind (P : SExpr -> Prop) :
  (forall s, P (Atom s)) ->
  (forall l, Forall P l -> P (SList l)) ->
  forall e, P e.
Proof.
  intros Hatom Hlist.
  fix IH 1. intros [s|l].
  - apply Hatom.
  - apply Hlist. induction l as [|e l IHl]; constructor; [apply IH | exact IHl].
Qed.

(** A match of a chain template binds [then] and [els] to the third and
    the fourth element of the expression, whatever the template of the
    condition captures: the decoders may take the list apart to reach
    them. *)
Lemma matchSExpr_ite_children (s : SExpr) (c : SExprPattern) (b : Bindings) :
  matchSExpr s (PList [PLit (js "ite"); c; PExpr "then"; PExpr "els"]) = Some b ->
  exists h x t e,
    s = SList [h; x; t; e] /\ capture b "then" = Some t /\ capture b "els" = Some e.
Proof.
  destruct s as [a|[|h [|x [|t [|e [|y l]]]]]]; try discriminate.
  1-3, 5: cbn [matchSExpr]; intros H; repeat (case_match; try discriminate).
  intros H. exists h, x, t, e. split; [reflexivity|].
  cbn [matchSExpr] in H.
  destruct (match h with Atom a => _ | SList _ => _ end) as [bh|]; [|discriminate].
  destruct (matchSExpr x c) as [bx|]; [|discriminate].
  injection H as <-. unfold capture.
  rewrite !rev_app_distr. cbn. auto.
Qed.

(** A match of the define-fun template captures a name and a body. *)
Lemma matchSExpr_define_fun (d : SExpr) (b : Bindings) :
  matchSExpr d define_fun = Some b ->
  exists name args sort body,
    d = SList [Atom (js "define-fun"); Atom name; SList args; sort; body]
    /\ capture b "name" = Some (Atom name) /\ capture b "body" = Some body.
Proof.
  destruct d as [a|[|h [|[name|] [|[|args] [|sort [|body [|y l]]]]]]];
    cbn; try discriminate;
    repeat match goal with
           | |- context [str_eqb ?x ?y] => destruct (str_eqb x y) eqn:?; try discriminate
           | |- context [match ?x with Atom _ => _ | SList _ => _ end] =>
               destruct x; try discriminate
           end.
  intros [= <-]. apply str_eqb_eq in Heqb0 as ->. eauto 10.
Qed.

(** ** Queries on names without a binding *)

(** The heap lookup finds nothing when the generation has an alias without
    a mapping, and when it has no alias and no mapping is called
    [undefined]. *)
Lemma heap_of_None (m : Model) (h : jsint) :
  heap_of m h = None <->
  match heaps m !! h with
  | Some alias => heapMappings m !! alias = None
  | None => heapMappings m !! js "undefined" = None
  end.
Proof. unfold heap_of. destruct (heaps m !! h); reflexivity. Qed.



(** ** The constructor on an error body *)

(** Whatever the text, the constructor hands its trimmed tail to the parser:
    the test on the error marker changes nothing. *)
Lemma Model_new_parses (o : Options) (smt : jsstring) :
  Model_new o smt =
  match parseSExpr (trim (substr_from 3 smt)) with
  | inl message => Throw (modelError o message)
  | inr data => Model_of_data o smt data
  end.
Proof. reflexivity. Qed.

(** C2.  On the output [sat (error unavailable)] the tail starts with the
    error marker, yet the body is parsed: the failure comes from the check
    of the head of the parsed list, and its description carries the whole
    output, not the trimmed error text. *)
Theorem Model_new_error_body :
  startsWith (trim (substr_from 3 text_error)) (js "(error") = true
  /\ parseSExpr (trim (substr_from 3 text_error))
     = inr (SList [Atom (js "error"); Atom (js "unavailable")])
  /\ Model_new defaultOptions text_error = Throw (modelError defaultOptions text_error)
  /\ Model_new defaultOptions text_error
     <> Throw (modelError defaultOptions (trim (substr_from 3 text_error))).
Proof.
  repeat split; try (vm_compute; reflexivity).
  vm_compute. discriminate.
Qed.

(** ** String literals *)

Lemma replace_escapes_decimal (d1 d2 : N) (s : jsstring) :
  is_decimal_digit d1 = true -> is_decimal_digit d2 = true ->
  replace_escapes (js "\x" ++ d1 :: d2 :: s)
  = fromCharCode (parseInt [d1; d2] 16) ++ replace_escapes s.
Proof. intros H1 H2. simpl. rewrite H1, H2. reflexivity. Qed.

Example parseStringValue_AB :
  parseStringValue (Atom (quoted "\x41\x42")) = Some (js "AB").
Proof. vm_compute. reflexivity. Qed.

(** A concatenation of two parts decodes to the concatenation of their
    decoded texts. *)
Lemma parseStringValue_concat (p1 p2 : SExpr) (x y : jsstring) :
  parseStringValue p1 = Some x -> parseStringValue p2 = Some y ->
  parseStringValue (SList [Atom (js "str.++"); p1; p2]) = Some (x ++ y).
Proof.
  intros H1 H2. cbn [parseStringValue].
  replace (head_is (Atom (js "str.++")) "str.++") with true by (vm_compute; reflexivity).
  rewrite H1, H2. reflexivity.
Qed.

(** C8.  The escape [\x4a] inside a quoted literal is left as it is written:
    the replacement looks for two decimal digits after [\x], so a pair with
    a hexadecimal letter is not turned into the character of that code
    (here [J]). *)
Theorem parseStringValue_hex_escape :
  parseStringValue (Atom (quoted "\x4a")) = Some (js "\x4a")
  /\ parseStringValue (Atom (quoted "\x4a")) <> Some (js "J").
Proof. split; vm_compute; [reflexivity | discriminate]. Qed.

(** ** Hydration of an array reference *)





(** ** Top-level entries that are not definitions *)

Lemma parseDefinition_no_match (o : Options) (d : SExpr) (m : Model) :
  matchSExpr d define_fun = None ->
  parseDefinition o d m =
  if is_nonempty_list d then Ret m else Throw (modelError o (js "expected define-fun")).
Proof.
  intros H. destruct d as [s|[|x l]]; try reflexivity.
  unfold parseDefinition. rewrite H. reflexivity.
Qed.

(** C6 (amended).  A top-level entry that does not match the define-fun
    shape aborts the construction, with the unrecognized-model failure, when
    it is an atom or an empty list; when it is a list that is not empty it is
    skipped, and the construction gives what it gives without that entry. *)
Theorem Model_of_data_malformed (o : Options) (smt : jsstring)
    (pre post : list SExpr) (d : SExpr) :
  matchSExpr d define_fun = None ->
  Model_of_data o smt (SList (Atom (js "model") :: pre ++ d :: post)) =
  if is_nonempty_list d
  then foldM (fun m s => parseDefinition o s m) Model_init (pre ++ post)
  else (foldM (fun m s => parseDefinition o s m) Model_init pre ;;;
        Throw (modelError o (js "expected define-fun"))).
Proof.
  intros H. unfold Model_of_data.
  replace (length (Atom (js "model") :: pre ++ d :: post) <? 2)%nat with false.
  2:{ symmetry. apply Nat.ltb_ge. simpl. rewrite length_app. simpl. lia. }
  rewrite str_eqb_refl, !foldM_app. simpl.
  destruct (foldM _ Model_init pre) as [m| |]; simpl; try (by destruct (is_nonempty_list d)).
  rewrite parseDefinition_no_match by exact H.
  destruct (is_nonempty_list d); reflexivity.
Qed.

Lemma Model_of_data_malformed_witness :
  matchSExpr entry_declare define_fun = None
  /\ Model_of_data defaultOptions (js "sat")
       (SList (Atom (js "model") :: [] ++ entry_declare :: [entry_define]))
     = foldM (fun m s => parseDefinition defaultOptions s m) Model_init ([] ++ [entry_define]).
Proof.
  split; [reflexivity|].
  apply (Model_of_data_malformed defaultOptions (js "sat") [] [entry_define] entry_declare).
  reflexivity.
Defined.

(** C6 as stated fails: the entry [(declare-fun x)] is not of the
    define-fun shape, the construction returns all the same, and the
    definition after it has been decoded. *)
Lemma Model_new_skips_counterexample :
  parseSExpr (trim (substr_from 3 text_declare))
  = inr (SList [Atom (js "model"); entry_declare; entry_define])
  /\ matchSExpr entry_declare define_fun = None
  /\ Model_new defaultOptions text_declare = Ret (model_of text_declare)
  /\ vars (model_of text_declare) !! js "y" = Some Null.
Proof. repeat split; vm_compute; reflexivity. Qed.

(** ** Conditional chains *)

(** A value that [parseLazyValue] accepts is not an [ite] expression, so a
    chain decoder takes it for a leaf. *)
Lemma parseLazyValue_leaf (o : Options) (s : SExpr) (v : Value) (ps : list SExprPattern) :
  parseLazyValue o s = Ret v -> matchSExpr s (PList (PLit (js "ite") :: ps)) = None.
Proof.
  intros H. destruct s as [a|[|[tag|t] rest]]; try reflexivity; try discriminate.
  cbn [matchSExpr]. destruct (str_eqb tag (js "ite")) eqn:Htag; [|reflexivity].
  apply str_eqb_eq in Htag. subst tag. vm_compute in H. discriminate.
Qed.

Lemma matchSExpr_ite_eq (n : string) (k : jsstring) (t e : SExpr) :
  matchSExpr
    (SList [Atom (js "ite"); SList [Atom (js "="); Atom (js "x!0"); Atom k]; t; e])
    (ite_eq n)
  = Some [(n, Atom k); ("then"%string, t); ("els"%string, e)].
Proof. reflexivity. Qed.

Lemma matchSExpr_ite_and (n0 n1 : string) (a i : jsstring) (t e : SExpr) :
  matchSExpr
    (SList [Atom (js "ite");
            SList [Atom (js "and");
                   SList [Atom (js "="); Atom (js "x!0"); Atom a];
                   SList [Atom (js "="); Atom (js "x!1"); Atom i]];
            t; e])
    (ite_and n0 n1)
  = Some [(n0, Atom a); (n1, Atom i); ("then"%string, t); ("els"%string, e)].
Proof. reflexivity. Qed.

Section Chains.

Variable o : Options.

Lemma parseArrayLengths_chain (cases : list (jsstring * jsstring)) (leaf : jsstring) :
  exists f : ArrLengths,
    parseArrayLengths o (chain_eq (numerals cases) (Atom leaf)) = Ret f
    /\ forall key, f key = parseInt (first_match key cases leaf) 10.
Proof.
  induction cases as [|[k t] cases (f & Hf & Hkey)].
  - eexists. split; [reflexivity|]. reflexivity.
  - eexists. split.
    + cbn [numerals List.map chain_eq fst snd parseArrayLengths].
      rewrite matchSExpr_ite_eq. fold (numerals cases). rewrite Hf. reflexivity.
    + intros key. cbn. destruct (str_eqb key k); [reflexivity | apply Hkey].
Qed.

Lemma parseArrayElems_leaf (s : SExpr) (v : Value) :
  parseLazyValue o s = Ret v -> parseArrayElems o s = Ret (fun _ _ => v).
Proof.
  intros H. pose proof (parseLazyValue_leaf o s v) as Hleaf.
  destruct s as [a|l]; cbn [parseArrayElems]; unfold ite_and;
    rewrite (Hleaf _ H), H; reflexivity.
Qed.

Lemma parseArrayElems_chain (cases : list (jsstring * jsstring * SExpr))
    (vals : list Value) (leaf : SExpr) (dflt : Value) :
  Forall2 (fun c v => parseLazyValue o (snd c) = Ret v) cases vals ->
  parseLazyValue o leaf = Ret dflt ->
  exists f : ArrElems,
    parseArrayElems o (chain_and cases leaf) = Ret f
    /\ forall arr idx,
         f arr idx = first_match2 arr idx (combine (List.map fst cases) vals) dflt.
Proof.
  intros Hcases Hleaf. induction Hcases as [|[[a i] t] v cases vals Hv _ (f & Hf & Hkey)].
  - exists (fun _ _ => dflt). split; [|reflexivity].
    by apply parseArrayElems_leaf.
  - cbn [fst snd] in Hv.
    eexists. split.
    + cbn [chain_and fst snd parseArrayElems].
      rewrite matchSExpr_ite_and, (parseArrayElems_leaf _ _ Hv), Hf. reflexivity.
    + intros arr idx. cbn.
      destruct (str_eqb arr a && bool_decide (Int idx = parseInt i 10)); [reflexivity | apply Hkey].
Qed.

(** C3.  The chain decoder gives a lookup function defined on every key, in
    which the first case of the chain whose equality holds gives the result
    and the trailing leaf is the fallback: for the array-length table, for
    the array-element table (on the two keys array and index), and on the
    chain [ite (= x!0 a) 1 (ite (= x!0 b) 2 0)], which sends [a] to 1, [b] to
    2 and every other key to 0. *)
Theorem chain_first_match :
  (forall (cases : list (jsstring * jsstring)) (leaf : jsstring),
     exists f : ArrLengths,
       parseArrayLengths o (chain_eq (numerals cases) (Atom leaf)) = Ret f
       /\ forall key, f key = parseInt (first_match key cases leaf) 10)
  /\ (forall (cases : list (jsstring * jsstring * SExpr)) (vals : list Value)
        (leaf : SExpr) (dflt : Value),
        Forall2 (fun c v => parseLazyValue o (snd c) = Ret v) cases vals ->
        parseLazyValue o leaf = Ret dflt ->
        exists f : ArrElems,
          parseArrayElems o (chain_and cases leaf) = Ret f
          /\ forall arr idx,
               f arr idx = first_match2 arr idx (combine (List.map fst cases) vals) dflt)
  /\ (exists f : ArrLengths,
        parseArrayLengths o
          (chain_eq [(js "a", Atom (js "1")); (js "b", Atom (js "2"))] (Atom (js "0"))) = Ret f
        /\ f (js "a") = Int 1 /\ f (js "b") = Int 2
        /\ forall key, key <> js "a" -> key <> js "b" -> f key = Int 0).
Proof.
  split; [exact parseArrayLengths_chain|]. split; [exact parseArrayElems_chain|].
  destruct (parseArrayLengths_chain [(js "a", js "1"); (js "b", js "2")] (js "0"))
    as (f & Hf & Hkey).
  exists f. split; [exact Hf|]. split; [|split].
  - rewrite Hkey. reflexivity.
  - rewrite Hkey. reflexivity.
  - intros key Ha Hb. rewrite Hkey. cbn [first_match fst snd].
    apply str_eqb_neq in Ha, Hb. rewrite Ha, Hb. reflexivity.
Qed.

End Chains.

Lemma chain_first_match_witness :
  exists f : ArrElems,
    parseArrayElems defaultOptions
      (chain_and [(js "Arr!0", js "0", SList [Atom (js "jsbool"); Atom (js "true")])]
                 (Atom (js "jsundefined"))) = Ret f
    /\ forall arr idx,
         f arr idx = first_match2 arr idx [(js "Arr!0", js "0", Bool true)] Undefined.
Proof.
  apply (proj1 (proj2 (chain_first_match defaultOptions))
           [(js "Arr!0", js "0", SList [Atom (js "jsbool"); Atom (js "true")])]
           [Bool true] (Atom (js "jsundefined")) Undefined).
  - repeat constructor.
  - reflexivity.
Defined.

(** ** The function-table builder *)

Lemma branches_ensure_fun (f g : jsstring) (n k : jsint) (m : Model) :
  branches (fst (ensure_fun f n m)) g k = branches m g k.
Proof.
  unfold branches, ensure_fun. cbn [fst funs set_funs].
  destruct (decide (f = g)) as [->|Hfg]; [|by rewrite lookup_insert_ne].
  rewrite lookup_insert_eq.
  destruct (funs m !! g) as [blocks|]; cbn.
  - destruct (decide (n = k)) as [->|Hnk]; [|by rewrite lookup_insert_ne].
    rewrite lookup_insert_eq. by destruct (blocks !! k).
  - destruct (decide (n = k)) as [->|Hnk]; [by rewrite lookup_insert_eq|].
    by rewrite lookup_insert_ne, lookup_empty.
Qed.

Lemma branches_unshift_branch (f g : jsstring) (n k : jsint) (br : Branch) (m : Model) :
  branches (unshift_branch f n br m) g k =
  if bool_decide (f = g /\ n = k) then br :: branches m g k else branches m g k.
Proof.
  unfold branches, unshift_branch. cbn [funs set_funs].
  destruct (decide (f = g)) as [->|Hfg].
  2:{ rewrite lookup_insert_ne by exact Hfg.
      by rewrite bool_decide_eq_false_2 by (intros [? _]; done). }
  rewrite lookup_insert_eq.
  destruct (decide (n = k)) as [->|Hnk].
  - rewrite lookup_insert_eq, bool_decide_eq_true_2 by done.
    destruct (funs m !! g) as [blocks|]; cbn.
    + by destruct (blocks !! k).
    + by rewrite lookup_empty.
  - rewrite lookup_insert_ne by exact Hnk.
    rewrite bool_decide_eq_false_2 by (intros [_ ?]; done).
    destruct (funs m !! g) as [blocks|]; cbn; [done|].
    by rewrite lookup_empty.
Qed.

Section FunctionTables.

Variable o : Options.

Lemma matchSExpr_arg_cond (idx : Z) (val : SExpr) :
  matchSExpr (arg_cond idx val) (arg_equality idx) = Some [("val"%string, val)].
Proof.
  unfold arg_cond, arg_equality. cbn [matchSExpr].
  rewrite !str_eqb_refl. reflexivity.
Qed.

(** Conditions that are all equalities on simple values give the list of
    these values. *)
Lemma parseConds_values (idx : Z) (vals : list SExpr) (xs acc : list Value) :
  Forall2 (fun s x => tryParseSimpleValue o s = Ret (Some x)) vals xs ->
  forall rest,
    parseConds o idx (arg_conds idx vals ++ rest) acc
    = parseConds o (idx + Z.of_nat (length vals)) rest (acc ++ xs).
Proof.
  intros H. revert idx acc.
  induction H as [|s x vals xs Hs _ IH]; intros idx acc rest.
  - cbn. rewrite Z.add_0_r, app_nil_r. reflexivity.
  - cbn [arg_conds app parseConds]. rewrite matchSExpr_arg_cond.
    cbn [capture rev app find fst snd String.eqb Ascii.eqb Bool.eqb].
    rewrite Hs. cbn [bind]. rewrite IH, <- app_assoc. cbn [app length].
    f_equal. lia.
Qed.

(** The step of the builder on a case in front of the rest of the chain:
    the rest is decoded first, then the case is recorded in front of the
    branches found there. *)
Lemma parseFunctions_branch (c : Case) (els : SExpr) (n : jsint) (m : Model) :
  parseFunctions o (branch_expr c els) n m =
  (m1 <- parseFunctions o els n m ;;
   fullCond <- parseConds o 4 (cconds c) [] ;;
   match fullCond with
   | None => Ret (fst (ensure_fun (cfun c) n m1))
   | Some fullCond =>
       then' <- parseLazyValue o (cthen c) ;;
       Ret (unshift_branch (cfun c) n {| cond := fullCond; ret := then' |}
              (fst (ensure_fun (cfun c) n m1)))
   end).
Proof.
  unfold branch_expr, case_cond. cbn [parseFunctions].
  change (matchSExpr _ ite_group) with
    (Some [("cond"%string,
            SList (Atom (js "and") :: fun_cond (cfun c) :: cthis c :: cheap c :: cconds c));
           ("then"%string, cthen c); ("els"%string, els)]).
  cbn iota. destruct (parseFunctions o els n m) as [m1| |]; [|reflexivity..].
  cbn [bind]. reflexivity.
Qed.

Lemma parseFunctions_leaf (s : SExpr) (v : Value) (n : jsint) (m : Model) :
  parseLazyValue o s = Ret v ->
  parseFunctions o s n m = Ret (set_funDefaults (<[n := v]> (funDefaults m)) m).
Proof.
  intros H. pose proof (parseLazyValue_leaf o s v) as Hleaf.
  destruct s as [a|l]; cbn [parseFunctions]; unfold ite_group;
    rewrite (Hleaf _ H), H; reflexivity.
Qed.

(** Whenever the builder returns on a case in front of a chain, the table
    is the one decoded from the rest of the chain, with at most one branch
    more, put in front of the branches of the function of the case. *)
Lemma parseFunctions_front (c : Case) (els : SExpr) (n : jsint) (m m' : Model) :
  parseFunctions o (branch_expr c els) n m = Ret m' ->
  exists m1,
    parseFunctions o els n m = Ret m1
    /\ funDefaults m' = funDefaults m1
    /\ forall f k,
         branches m' f k = branches m1 f k
         \/ (f = cfun c /\ k = n /\ exists br, branches m' f k = br :: branches m1 f k).
Proof.
  intros H. rewrite parseFunctions_branch in H.
  apply bind_Ret in H as (m1 & Hm1 & H). exists m1. split; [exact Hm1|].
  apply bind_Ret in H as ([fullCond|] & _ & H).
  - apply bind_Ret in H as (then' & _ & H).
    assert (Hm' : m' = unshift_branch (cfun c) n {| cond := fullCond; ret := then' |}
                         (fst (ensure_fun (cfun c) n m1))) by congruence.
    subst m'. split; [reflexivity|]. intros f k.
    rewrite branches_unshift_branch, branches_ensure_fun.
    destruct (bool_decide_reflect (cfun c = f /\ n = k)) as [[<- <-]|_]; eauto 10.
  - assert (Hm' : m' = fst (ensure_fun (cfun c) n m1)) by congruence.
    subst m'. split; [reflexivity|]. intros f k.
    left. apply branches_ensure_fun.
Qed.

(** C4.  The builder decodes the else branch before it records the case in
    front of it, and puts the recorded branch in front of the branches
    found there; so on a chain of cases that all decode, the branch list of
    every function holds the branches of its cases in the order of the
    chain, outermost first, in front of the branches it had before, and the
    leaf is the default of the arity. *)
Theorem parseFunctions_order :
  (forall (c : Case) (els : SExpr) (n : jsint) (m m' : Model),
     parseFunctions o (branch_expr c els) n m = Ret m' ->
     exists m1,
       parseFunctions o els n m = Ret m1
       /\ funDefaults m' = funDefaults m1
       /\ forall f k,
            branches m' f k = branches m1 f k
            \/ (f = cfun c /\ k = n /\ exists br, branches m' f k = br :: branches m1 f k))
  /\ (forall (cases : list Case) (brs : list Branch) (leaf : SExpr) (dflt : Value)
         (n : jsint) (m : Model),
        Forall2 (case_decodes o) cases brs ->
        parseLazyValue o leaf = Ret dflt ->
        exists m',
          parseFunctions o (app_chain cases leaf) n m = Ret m'
          /\ funDefaults m' !! n = Some dflt
          /\ forall f, branches m' f n = recorded f cases brs ++ branches m f n).
Proof.
  split; [exact parseFunctions_front|].
  intros cases brs leaf dflt n m.
  intros Hcases Hleaf.
  induction Hcases as [|c br cases brs Hc _ (m1 & Hm1 & Hd & Hb)].
  - eexists. split; [by apply parseFunctions_leaf|]. split.
    + cbn. apply lookup_insert_eq.
    + intros f. reflexivity.
  - destruct Hc as [(vals & Hconds & Hvals) Hthen]. destruct br as [cnd rt].
    cbn [cond ret] in Hvals, Hthen.
    eexists. split; [|split].
    + cbn [app_chain]. rewrite parseFunctions_branch, Hm1. cbn [bind].
      rewrite Hconds, <- (app_nil_r (arg_conds 4 vals)).
      rewrite (parseConds_values 4 vals cnd [] Hvals). cbn [parseConds app bind].
      rewrite Hthen. reflexivity.
    + exact Hd.
    + intros f. rewrite branches_unshift_branch, branches_ensure_fun, Hb.
      unfold recorded. cbn [combine List.filter fst].
      destruct (decide (cfun c = f)) as [Hf|Hf].
      * rewrite bool_decide_eq_true_2 by done.
        rewrite (bool_decide_eq_true_2 (cfun c = f)) by done. reflexivity.
      * rewrite bool_decide_eq_false_2 by (intros [? _]; done).
        rewrite (bool_decide_eq_false_2 (cfun c = f)) by done. reflexivity.
Qed.

End FunctionTables.

Lemma parseFunctions_order_witness :
  (exists m1,
     parseFunctions defaultOptions (Atom (js "jsundefined")) (Int 1) Model_init = Ret m1
     /\ funDefaults (table_of (branch_expr case_three (Atom (js "jsundefined"))) (Int 1))
        = funDefaults m1
     /\ forall f k,
          branches (table_of (branch_expr case_three (Atom (js "jsundefined"))) (Int 1)) f k
          = branches m1 f k
          \/ (f = cfun case_three /\ k = Int 1
              /\ exists br,
                   branches (table_of (branch_expr case_three (Atom (js "jsundefined"))) (Int 1)) f k
                   = br :: branches m1 f k))
  /\ (exists m',
        parseFunctions defaultOptions
          (app_chain [case_three; case_four] (Atom (js "jsundefined"))) (Int 1) Model_init = Ret m'
        /\ funDefaults m' !! Int 1 = Some Undefined
        /\ forall f,
             branches m' f (Int 1) =
             recorded f [case_three; case_four]
               [{| cond := [Bool true]; ret := Null |};
                {| cond := [Bool false]; ret := ObjRef (js "Obj!0") |}]
             ++ branches Model_init f (Int 1)).
Proof.
  split.
  - apply (proj1 (parseFunctions_order defaultOptions)). reflexivity.
  - apply (proj2 (parseFunctions_order defaultOptions)).
    + constructor; [|constructor; [|constructor]].
      * split; [|reflexivity].
        exists [SList [Atom (js "jsbool"); Atom (js "true")]].
        split; [reflexivity | repeat constructor].
      * split; [|reflexivity].
        exists [SList [Atom (js "jsbool"); Atom (js "false")]].
        split; [reflexivity | repeat constructor].
    + reflexivity.
Defined.

(** The two branches of [f!1] come out with the outer case first. *)
Example parseFunctions_order_example :
  match parseFunctions defaultOptions
          (app_chain [case_three; case_four] (Atom (js "jsundefined"))) (Int 1) Model_init with
  | Ret m' => branches m' (js "f!1") (Int 1)
  | _ => []
  end
  = [{| cond := [Bool true]; ret := Null |};
     {| cond := [Bool false]; ret := ObjRef (js "Obj!0") |}].
Proof. vm_compute. reflexivity. Qed.

Section DroppedBranches.

Variable o : Options.

Lemma parseConds_gives_up (idx : Z) (good : list SExpr) (goodv : list Value)
    (val : SExpr) (rest : list SExpr) (acc : list Value) :
  Forall2 (fun s x => tryParseSimpleValue o s = Ret (Some x)) good goodv ->
  tryParseSimpleValue o val = Ret None ->
  parseConds o idx (arg_conds idx good ++ arg_cond (idx + Z.of_nat (length good)) val :: rest) acc
  = Ret None.
Proof.
  intros Hgood Hval. rewrite (parseConds_values o idx good goodv acc Hgood).
  cbn [parseConds]. rewrite matchSExpr_arg_cond.
  cbn [capture rev app find fst snd String.eqb Ascii.eqb Bool.eqb].
  rewrite Hval. reflexivity.
Qed.

Lemma parseConds_rejects (idx : Z) (good : list SExpr) (goodv : list Value)
    (bad : SExpr) (rest : list SExpr) (acc : list Value) :
  Forall2 (fun s x => tryParseSimpleValue o s = Ret (Some x)) good goodv ->
  matchSExpr bad (arg_equality (idx + Z.of_nat (length good))) = None ->
  parseConds o idx (arg_conds idx good ++ bad :: rest) acc
  = Throw (modelError o (js "expected (= x!idx $val)")).
Proof.
  intros Hgood Hbad. rewrite (parseConds_values o idx good goodv acc Hgood).
  cbn [parseConds]. rewrite Hbad. reflexivity.
Qed.

(** C7 (amended).  Take a branch whose function-identity conjunct has the
    expected shape and whose first argument conditions are equalities on
    simple values.  When the next condition is such an equality on a value
    that is not a simple scalar, the branch is given up without an error:
    the builder returns the table of the rest of the chain, with the same
    branches and defaults.  When the next condition is not an equality of
    the expected form, the builder does not drop the branch: it fails with
    the unrecognized-model error. *)
Theorem parseFunctions_drop (c : Case) (els : SExpr) (n : jsint) (m m1 : Model)
    (good : list SExpr) (goodv : list Value) (bad : SExpr) (rest : list SExpr) :
  parseFunctions o els n m = Ret m1 ->
  Forall2 (fun s x => tryParseSimpleValue o s = Ret (Some x)) good goodv ->
  cconds c = arg_conds 4 good ++ bad :: rest ->
  (forall val,
     bad = arg_cond (4 + Z.of_nat (length good)) val ->
     tryParseSimpleValue o val = Ret None ->
     exists m2,
       parseFunctions o (branch_expr c els) n m = Ret m2
       /\ funDefaults m2 = funDefaults m1
       /\ forall f k, branches m2 f k = branches m1 f k)
  /\ (matchSExpr bad (arg_equality (4 + Z.of_nat (length good))) = None ->
      parseFunctions o (branch_expr c els) n m
      = Throw (modelError o (js "expected (= x!idx $val)"))).
Proof.
  intros Hels Hgood Hconds. split.
  - intros val -> Hval. exists (fst (ensure_fun (cfun c) n m1)).
    split; [|split].
    + rewrite parseFunctions_branch, Hels, Hconds. cbn [bind].
      rewrite (parseConds_gives_up 4 good goodv val rest [] Hgood Hval). reflexivity.
    + reflexivity.
    + intros f k. apply branches_ensure_fun.
  - intros Hbad. rewrite parseFunctions_branch, Hels, Hconds. cbn [bind].
    rewrite (parseConds_rejects 4 good goodv bad rest [] Hgood Hbad). reflexivity.
Qed.

End DroppedBranches.

Lemma parseFunctions_drop_witness :
  (exists m2,
     parseFunctions defaultOptions (branch_expr case_reference (Atom (js "jsundefined")))
       (Int 1) Model_init = Ret m2
     /\ funDefaults m2 = <[Int 1 := Undefined]> ∅
     /\ forall f k, branches m2 f k = [])
  /\ parseFunctions defaultOptions (branch_expr case_inequality (Atom (js "jsundefined")))
       (Int 1) Model_init
     = Throw (modelError defaultOptions (js "expected (= x!idx $val)")).
Proof.
  split.
  - apply (proj1 (parseFunctions_drop defaultOptions case_reference (Atom (js "jsundefined"))
                    (Int 1) Model_init
                    (set_funDefaults (<[Int 1 := Undefined]> ∅) Model_init)
                    [] [] (arg_cond 4 (SList [Atom (js "jsobj"); Atom (js "Obj!0")])) []
                    eq_refl (List.Forall2_nil _) eq_refl)
             (SList [Atom (js "jsobj"); Atom (js "Obj!0")]) eq_refl eq_refl).
  - apply (proj2 (parseFunctions_drop defaultOptions case_inequality (Atom (js "jsundefined"))
                    (Int 1) Model_init
                    (set_funDefaults (<[Int 1 := Undefined]> ∅) Model_init)
                    [] []
                    (SList [Atom (js "<"); Atom (js "x!3"); SList [Atom (js "jsint"); Atom (js "3")]])
                    [] eq_refl (List.Forall2_nil _) eq_refl)).
    reflexivity.
Defined.

(** C7 as stated fails: the branch has an argument condition that is not an
    equality, and the construction fails with the unrecognized-model error
    instead of dropping the branch. *)
Lemma parseFunctions_raises_counterexample :
  parseSExpr (trim (substr_from 3 text_inequality))
  = inr (SList [Atom (js "model");
                SList [Atom (js "define-fun"); Atom (js "app1");
                       SList [SList [Atom (js "x!0"); Atom (js "JSVal")];
                              SList [Atom (js "x!1"); Atom (js "JSVal")];
                              SList [Atom (js "x!2"); Atom (js "Heap")];
                              SList [Atom (js "x!3"); Atom (js "JSVal")]];
                       Atom (js "JSVal");
                       branch_expr case_inequality (Atom (js "jsundefined"))]])
  /\ Model_new defaultOptions text_inequality
     = Throw (modelError defaultOptions (js "expected (= x!idx $val)")).
Proof. split; vm_compute; reflexivity. Qed.

(** ** Hydrated values are concrete *)

Lemma mapM_forallb {A B : Type} (f : A -> Result B) (p : B -> bool) (l : list A) (bs : list B) :
  Forall (fun a => forall b, f a = Ret b -> p b = true) l ->
  mapM f l = Ret bs -> forallb p bs = true.
Proof.
  intros Hl H. apply mapM_Ret in H. induction H as [|a b l bs Hab _ IH]; [reflexivity|].
  inversion Hl; subst. cbn. rewrite (H1 _ Hab), IH by assumption. reflexivity.
Qed.

Lemma set_forallb {A : Type} (p : A -> bool) (key : jsstring) (x : A) (obj : list (jsstring * A)) :
  p x = true -> forallb (fun q => p (snd q)) obj = true ->
  forallb (fun q => p (snd q)) (JSObject.set key x obj) = true.
Proof.
  intros Hx. induction obj as [|[key' x'] obj IH]; cbn; intros H.
  - by rewrite Hx.
  - apply andb_true_iff in H as [H1 H2].
    destruct (str_eqb key key'); [cbn; by rewrite Hx, H2|].
    destruct (JSObject.before key key'); cbn; [by rewrite Hx, H1, H2|].
    by rewrite H1, IH.
Qed.

Section Concrete.

Variable o : Options.

(** What the value parser returns is of the static type [LazyValue], and so
    is every entry of a table decoded from a chain. *)
Lemma parseLazyValue_isLazyValue (s : SExpr) (v : Value) :
  parseLazyValue o s = Ret v -> isLazyValue v = true.
Proof.
  revert v. induction s as [a|l IH] using SExpr_nested_ind; intros v H;
    cbn [parseLazyValue] in H; invert_Ret; try reflexivity.
  cbn. eapply mapM_forallb; eassumption.
Qed.

Lemma parseArrayElems_isLazyValue (s : SExpr) (f : ArrElems) :
  parseArrayElems o s = Ret f -> forall arr idx, isLazyValue (f arr idx) = true.
Proof.
  revert f. induction s as [a|l IH] using SExpr_nested_ind; intros f H arr idx;
    cbn [parseArrayElems] in H; invert_Ret; eauto using parseLazyValue_isLazyValue.
  destruct (_ && _); eauto.
Qed.

Lemma parseObjectFields_isLazyValue (s : SExpr) (f : ObjFields) :
  parseObjectFields o s = Ret f -> forall obj prop, isLazyValue (f obj prop) = true.
Proof.
  revert f. induction s as [a|l IH] using SExpr_nested_ind; intros f H obj prop;
    cbn [parseObjectFields] in H; invert_Ret; eauto using parseLazyValue_isLazyValue.
  destruct (_ && _); eauto.
Qed.

Lemma parseHeapMapping_isLazyValue (s : SExpr) (f : HeapMapping) :
  parseHeapMapping o s = Ret f -> forall l, isLazyValue (f l) = true.
Proof.
  revert f. induction s as [a|l IH] using SExpr_nested_ind; intros f H loc;
    cbn [parseHeapMapping] in H; invert_Ret; eauto using parseLazyValue_isLazyValue.
  destruct (is_atom _ _); eauto.
Qed.

(** The function-table builder writes to the function tables only. *)
Lemma parseFunctions_frame (s : SExpr) (n : jsint) (m m' : Model) :
  parseFunctions o s n m = Ret m' ->
  vars m' = vars m /\ arrElems m' = arrElems m /\ objFields m' = objFields m
  /\ heapMappings m' = heapMappings m.
Proof.
  revert m m'. induction s as [a|l IH] using SExpr_nested_ind; intros m m' H;
    cbn [parseFunctions] in H; invert_Ret; try (repeat split; reflexivity).
  all: match goal with
       | Hi : forall m m', parseFunctions _ ?s ?k m = Ret m' -> _,
         Hp : parseFunctions _ ?s ?k _ = Ret _ |- _ => apply Hi in Hp as (? & ? & ? & ?)
       end.
  all: try match goal with
           | Hp : ensure_fun _ _ _ = (_, _) |- _ =>
               unfold ensure_fun in Hp; injection Hp as <- <-
           end.
  all: cbn; auto.
Qed.

(** Each definition keeps the tables well formed, so the model that the
    constructor returns is well formed. *)
Lemma parseDefinition_wf (d : SExpr) (m m' : Model) :
  parseDefinition o d m = Ret m' -> Model_wf m -> Model_wf m'.
Proof.
  intros H [Hvars Helems Hfields Hheaps]. unfold parseDefinition in H.
  invert_Ret; try (constructor; assumption).
  all: try match goal with
           | Hp : parseFunctions _ _ _ _ = Ret _ |- _ =>
               apply parseFunctions_frame in Hp as (? & ? & ? & ?)
           end.
  all: constructor; cbn; try assumption.
  all: try (apply map_Forall_insert_2;
            [eauto using parseLazyValue_isLazyValue, parseHeapMapping_isLazyValue
            | assumption]).
  all: try (intros ? [= <-];
            eauto using parseArrayElems_isLazyValue, parseObjectFields_isLazyValue).
  all: repeat match goal with
              | Hf : ?f ?m2 = ?f ?m1 |- context [?f ?m2] => rewrite Hf; clear Hf
              end; assumption.
Qed.

Lemma Model_init_wf : Model_wf Model_init.
Proof. constructor; cbn; try discriminate; apply map_Forall_empty. Qed.

Lemma Model_new_wf (smt : jsstring) (m : Model) : Model_new o smt = Ret m -> Model_wf m.
Proof.
  unfold Model_new, Model_of_data. intros H. invert_Ret.
  eapply (foldM_invariant Model_wf); [|apply Model_init_wf|eassumption].
  intros m0 d m1 Hm0 Hd. cbn beta in Hd. eauto using parseDefinition_wf.
Qed.

(** A lazy value that hydration passes through unchanged is concrete. *)
Lemma isLazyValue_passes (val : Value) :
  isLazyValue val = true ->
  match val with
  | ObjCls _ _ | FunRef _ | ArrRef _ | ObjRef _ => True
  | _ => isJSVal val = true
  end.
Proof. destruct val; cbn; intros H; try discriminate H; auto. Qed.

(** On a well-formed model, hydration of a lazy value returns concrete
    values only; by induction on the fuel. *)
Lemma hydrate_isJSVal (fuel : nat) (m : Model) (val v : Value) :
  Model_wf m -> isLazyValue val = true ->
  hydrate o fuel m val = Ret v -> isJSVal v = true.
Proof.
  intros [Hvars Helems Hfields Hheaps]. revert val v.
  induction fuel as [|fuel IH]; intros val v Hlazy H; [discriminate|].
  pose proof (isLazyValue_passes val Hlazy) as Hpass.
  destruct val; cbn [hydrate] in H; try (injection H as <-; exact Hpass).
  - (* ObjCls *)
    invert_Ret. cbn. cbn in Hlazy. eapply mapM_forallb; [|eassumption].
    apply Forall_forall. intros x Hx b Hb. eapply IH; [|exact Hb].
    rewrite forallb_forall in Hlazy. apply Hlazy. by apply list_elem_of_In.
  - (* ArrRef *)
    invert_Ret. cbn. eapply mapM_forallb; [|eassumption].
    apply Forall_forall. intros i _ b Hb. cbn beta in Hb. invert_Ret. eauto.
  - (* ObjRef *)
    invert_Ret.
    match goal with
    | Hfold : foldM ?g [] ?keys = Ret ?obj |- _ =>
        change (forallb (fun q => isJSVal (snd q)) obj = true);
        apply (foldM_invariant
                 (fun obj => forallb (fun q => isJSVal (snd q)) obj = true) g keys)
          with (s := []); [|reflexivity|exact Hfold]
    end.
    intros obj key obj' Hobj Hkey. cbn beta in Hkey. invert_Ret.
    apply set_forallb; eauto.
  - (* FunRef *)
    invert_Ret; reflexivity.
Qed.

End Concrete.



(** ** Repeatable queries *)

Lemma approx_refl {A : Type} (r : Result A) : approx r r.
Proof. destruct r; simpl; eauto. Qed.

Lemma approx_Throw {A : Type} (e1 e2 : Exn) : approx (A := A) (Throw e1) (Throw e2).
Proof. simpl. eauto. Qed.

Lemma approx_bind {A B : Type} (m1 m2 : Result A) (k1 k2 : A -> Result B) :
  approx m1 m2 -> (forall a, approx (k1 a) (k2 a)) ->
  approx (bind m1 k1) (bind m2 k2).
Proof.
  destruct m1 as [a|e|]; simpl; [| |done].
  - intros -> H. apply H.
  - intros [e' ->] _. simpl. eauto.
Qed.

Lemma approx_mapM {A B : Type} (f1 f2 : A -> Result B) (l : list A) :
  Forall (fun a => approx (f1 a) (f2 a)) l -> approx (mapM f1 l) (mapM f2 l).
Proof.
  induction 1 as [|a l Ha _ IH]; simpl; [reflexivity|].
  apply approx_bind; [exact Ha|]. intros b.
  apply approx_bind; [exact IH|]. intros bs. reflexivity.
Qed.

Lemma approx_foldM {A S : Type} (g1 g2 : S -> A -> Result S) (l : list A) (s : S) :
  (forall s a, approx (g1 s a) (g2 s a)) -> approx (foldM g1 s l) (foldM g2 s l).
Proof.
  intros Hg. revert s. induction l as [|a l IH]; intros s; simpl; [reflexivity|].
  apply approx_bind; [apply Hg | exact IH].
Qed.

Lemma approx_mapM_pointwise {A B : Type} (f1 f2 : A -> Result B) (l : list A) :
  (forall a, approx (f1 a) (f2 a)) -> approx (mapM f1 l) (mapM f2 l).
Proof. intros H. apply approx_mapM. induction l; constructor; auto. Qed.

(** One step of a proof that two runs of the same code agree: both sides
    have the same shape and differ in the options, and in the fuel. *)
Ltac approx_step :=
  match goal with
  | H : Forall _ (_ :: _) |- _ => inversion H; subst; clear H
  | |- approx (Ret _) (Ret _) => reflexivity
  | |- approx (Throw _) (Throw _) => apply approx_Throw
  | |- approx (bind _ _) (bind _ _) => apply approx_bind; [|intros ?]
  | |- approx (mapM _ ?l) (mapM _ ?l) =>
      first [apply approx_mapM; eassumption | apply approx_mapM_pointwise; intros ?]
  | |- approx (foldM _ _ ?l) (foldM _ _ ?l) => apply approx_foldM; intros ? ?; cbn beta
  | |- approx (match ?x with _ => _ end) (match ?x with _ => _ end) => destruct x
  | |- approx (if ?b then _ else _) (if ?b then _ else _) => destruct b
  | |- approx ?r ?r => apply approx_refl
  end.

Create HintDb agree.

Ltac approx_auto := repeat (approx_step; try eassumption; auto with agree).

Section Agreement.

Variables o1 o2 : Options.

Lemma parseNum_agree (v : SExpr) : approx (parseNum o1 v) (parseNum o2 v).
Proof.
  induction v as [s|l IH] using SExpr_nested_ind; cbn [parseNum]; approx_auto.
Qed.
#[local] Hint Resolve parseNum_agree : agree.

Lemma tryParseSimpleValue_agree (s : SExpr) :
  approx (tryParseSimpleValue o1 s) (tryParseSimpleValue o2 s).
Proof. unfold tryParseSimpleValue. approx_auto. Qed.
#[local] Hint Resolve tryParseSimpleValue_agree : agree.

Lemma parseLazyValue_agree (s : SExpr) : approx (parseLazyValue o1 s) (parseLazyValue o2 s).
Proof.
  induction s as [a|l IH] using SExpr_nested_ind; cbn [parseLazyValue]; approx_auto.
Qed.
#[local] Hint Resolve parseLazyValue_agree : agree.

Lemma parseHeap_agree (s : SExpr) : approx (parseHeap o1 s) (parseHeap o2 s).
Proof. unfold parseHeap. approx_auto. Qed.
#[local] Hint Resolve parseHeap_agree : agree.

Lemma parseHeapMapping_agree (s : SExpr) :
  approx (parseHeapMapping o1 s) (parseHeapMapping o2 s).
Proof.
  induction s as [a|l IH] using SExpr_nested_ind; cbn [parseHeapMapping]; approx_auto.
Qed.
#[local] Hint Resolve parseHeapMapping_agree : agree.

Lemma parseArrayLengths_agree (s : SExpr) :
  approx (parseArrayLengths o1 s) (parseArrayLengths o2 s).
Proof.
  induction s as [a|l IH] using SExpr_nested_ind; cbn [parseArrayLengths]; approx_auto.
Qed.
#[local] Hint Resolve parseArrayLengths_agree : agree.

Lemma parseArrayElems_agree (s : SExpr) :
  approx (parseArrayElems o1 s) (parseArrayElems o2 s).
Proof.
  induction s as [a|l IH] using SExpr_nested_ind; cbn [parseArrayElems]; approx_auto.
Qed.
#[local] Hint Resolve parseArrayElems_agree : agree.

Lemma parseObjectProperties_agree (s : SExpr) :
  approx (parseObjectProperties o1 s) (parseObjectProperties o2 s).
Proof.
  induction s as [a|l IH] using SExpr_nested_ind; cbn [parseObjectProperties]; approx_auto.
Qed.
#[local] Hint Resolve parseObjectProperties_agree : agree.

Lemma parsePropertyMapping_agree (s : SExpr) :
  approx (parsePropertyMapping o1 s) (parsePropertyMapping o2 s).
Proof.
  induction s as [a|l IH] using SExpr_nested_ind; cbn [parsePropertyMapping]; approx_auto.
Qed.
#[local] Hint Resolve parsePropertyMapping_agree : agree.

Lemma parseObjectFields_agree (s : SExpr) :
  approx (parseObjectFields o1 s) (parseObjectFields o2 s).
Proof.
  induction s as [a|l IH] using SExpr_nested_ind; cbn [parseObjectFields]; approx_auto.
Qed.
#[local] Hint Resolve parseObjectFields_agree : agree.

Lemma parseConds_agree (conds : list SExpr) (idx : Z) (acc : list Value) :
  approx (parseConds o1 idx conds acc) (parseConds o2 idx conds acc).
Proof.
  revert idx acc. induction conds as [|c conds IH]; intros idx acc; cbn [parseConds];
    approx_auto.
Qed.
#[local] Hint Resolve parseConds_agree : agree.

Lemma parseFunctions_agree (s : SExpr) (n : jsint) (m : Model) :
  approx (parseFunctions o1 s n m) (parseFunctions o2 s n m).
Proof.
  revert m. induction s as [a|l IH] using SExpr_nested_ind; intros m;
    cbn [parseFunctions]; approx_auto.
Qed.
#[local] Hint Resolve parseFunctions_agree : agree.

Lemma parseDefinition_agree (d : SExpr) (m : Model) :
  approx (parseDefinition o1 d m) (parseDefinition o2 d m).
Proof. unfold parseDefinition. approx_auto. Qed.
#[local] Hint Resolve parseDefinition_agree : agree.




End Agreement.



(** * Further properties

    Properties of the decoder and of hydration beyond the statements
    above: the kinds of failure, the scalar values, the property sets and
    the objects built from them, numerals and string literals, the heap and
    object tables, the variables of a model, and the synthesized
    functions. *)

(** ** The kinds of failure *)

Lemma throws_only_bind {A B : Type} (P : Exn -> Prop) (m : Result A) (k : A -> Result B) :
  throws_only P m -> (forall a, throws_only P (k a)) -> throws_only P (bind m k).
Proof. destruct m as [a|e|]; simpl; auto. Qed.

Lemma throws_only_mapM {A B : Type} (P : Exn -> Prop) (f : A -> Result B) (l : list A) :
  Forall (fun a => throws_only P (f a)) l -> throws_only P (mapM f l).
Proof.
  induction 1 as [|a l Ha _ IH]; simpl; [exact I|].
  apply throws_only_bind; [exact Ha|]. intros b.
  apply throws_only_bind; [exact IH|]. intros bs. exact I.
Qed.

Lemma throws_only_foldM {A S : Type} (P : Exn -> Prop) (g : S -> A -> Result S)
    (l : list A) (s : S) :
  Forall (fun a => forall s, throws_only P (g s a)) l -> throws_only P (foldM g s l).
Proof.
  intros H. revert s. induction H as [|a l Ha _ IH]; intros s; simpl; [exact I|].
  apply throws_only_bind; [apply Ha | exact IH].
Qed.

Lemma is_modelError_intro (o : Options) (msg : jsstring) : is_modelError o (modelError o msg).
Proof. by exists msg. Qed.

Lemma matchSExpr_ite_group (s : SExpr) (b : Bindings) :
  matchSExpr s ite_group = Some b ->
  exists h c t e, s = SList [h; SList c; t; e].
Proof.
  intros H. pose proof H as H'. unfold ite_group in H'.
  apply matchSExpr_ite_children in H' as (h & x & t & e & -> & _).
  destruct x as [a|c]; [|by eauto].
  cbn in H. destruct (match h with Atom a => _ | SList _ => _ end); discriminate.
Qed.

Lemma matchSExpr_arg_equality (c : SExpr) (idx : Z) (b : Bindings) :
  matchSExpr c (arg_equality idx) = Some b -> exists val, capture b "val" = Some val.
Proof.
  unfold arg_equality. destruct c as [a|[|h [|x [|v [|y l]]]]]; cbn [matchSExpr]; try discriminate;
    intros H; repeat (case_match; try discriminate).
  injection H as <-. exists v. simplify_eq. reflexivity.
Qed.

Lemma matchSExpr_shape_body (d : SExpr) (args : SExprPattern) (sort : jsstring) (b : Bindings) :
  matchSExpr d (PList [PLit (js "define-fun"); PName "name"; args; PLit sort; PExpr "body"])
  = Some b ->
  exists body, capture b "body" = Some body.
Proof.
  destruct d as [a|[|h [|n [|x [|v [|body [|y l]]]]]]]; cbn [matchSExpr]; try discriminate;
    intros H; repeat (case_match; try discriminate).
  injection H as <-. exists body. simplify_eq. unfold capture.
  rewrite !rev_app_distr. reflexivity.
Qed.

(** One step of a proof that a computation throws nothing outside [P]. *)
Ltac throws_step :=
  match goal with
  | H : Forall _ (_ :: _) |- _ => inversion H; subst; clear H
  | |- throws_only _ (Ret _) => exact I
  | |- throws_only _ Diverge => exact I
  | |- throws_only _ (Throw (modelError _ _)) => cbn; eauto using is_modelError_intro
  | |- throws_only _ (bind _ _) => apply throws_only_bind; [|intros ?]
  | |- throws_only _ (mapM _ _) => apply throws_only_mapM
  | |- throws_only _ (if ?b then _ else _) => destruct b
  | |- throws_only _ (match ?x with _ => _ end) => destruct x eqn:?
  end.

Create HintDb throws.

Ltac throws_auto := repeat (throws_step; try eassumption; auto with throws).

Section Failures.

Variable o : Options.

Lemma parseNum_throws (v : SExpr) : throws_only (is_modelError o) (parseNum o v).
Proof.
  induction v as [s|l IH] using SExpr_nested_ind; cbn [parseNum]; throws_auto.
Qed.
#[local] Hint Resolve parseNum_throws : throws.

Lemma tryParseSimpleValue_throws (s : SExpr) :
  throws_only (is_modelError o) (tryParseSimpleValue o s).
Proof. unfold tryParseSimpleValue. throws_auto. Qed.
#[local] Hint Resolve tryParseSimpleValue_throws : throws.

Lemma parseLazyValue_throws (s : SExpr) : throws_only (is_modelError o) (parseLazyValue o s).
Proof.
  induction s as [a|l IH] using SExpr_nested_ind; cbn [parseLazyValue]; throws_auto.
Qed.
#[local] Hint Resolve parseLazyValue_throws : throws.

(** A chain decoder on an expression: when the chain template matches, the
    expression is a list of four elements, and the two branches are its last
    two. *)
Ltac chain_shape :=
  match goal with
  | |- context [matchSExpr ?s ?p] =>
      let Hm := fresh "Hm" in
      destruct (matchSExpr s p) eqn:Hm;
      [ let Hs := fresh "Hs" in
        pose proof Hm as Hs; unfold ite_eq, ite_and, ite_group in Hs;
        apply matchSExpr_ite_children in Hs as (? & ? & ? & ? & Hs & _);
        first [discriminate Hs | injection Hs as ->]
      | ]
  end.

Lemma parseHeap_throws (s : SExpr) : throws_only (is_modelError o) (parseHeap o s).
Proof. unfold parseHeap. throws_auto. Qed.
#[local] Hint Resolve parseHeap_throws : throws.

Lemma parseHeapMapping_throws (s : SExpr) :
  throws_only (is_modelError o) (parseHeapMapping o s).
Proof.
  induction s as [a|l IH] using SExpr_nested_ind; cbn [parseHeapMapping];
    chain_shape; throws_auto.
Qed.
#[local] Hint Resolve parseHeapMapping_throws : throws.

Lemma parseArrayLengths_throws (s : SExpr) :
  throws_only (is_modelError o) (parseArrayLengths o s).
Proof.
  induction s as [a|l IH] using SExpr_nested_ind; cbn [parseArrayLengths];
    chain_shape; throws_auto.
Qed.
#[local] Hint Resolve parseArrayLengths_throws : throws.

Lemma parseArrayElems_throws (s : SExpr) :
  throws_only (is_modelError o) (parseArrayElems o s).
Proof.
  induction s as [a|l IH] using SExpr_nested_ind; cbn [parseArrayElems];
    chain_shape; throws_auto.
Qed.
#[local] Hint Resolve parseArrayElems_throws : throws.

Lemma parseObjectProperties_throws (s : SExpr) :
  throws_only (is_modelError o) (parseObjectProperties o s).
Proof.
  induction s as [a|l IH] using SExpr_nested_ind; cbn [parseObjectProperties];
    chain_shape; throws_auto.
Qed.
#[local] Hint Resolve parseObjectProperties_throws : throws.

Lemma parsePropertyMapping_throws (s : SExpr) :
  throws_only (is_modelError o) (parsePropertyMapping o s).
Proof.
  induction s as [a|l IH] using SExpr_nested_ind; cbn [parsePropertyMapping];
    chain_shape; throws_auto.
Qed.
#[local] Hint Resolve parsePropertyMapping_throws : throws.

Lemma parseObjectFields_throws (s : SExpr) :
  throws_only (is_modelError o) (parseObjectFields o s).
Proof.
  induction s as [a|l IH] using SExpr_nested_ind; cbn [parseObjectFields];
    chain_shape; throws_auto.
Qed.
#[local] Hint Resolve parseObjectFields_throws : throws.

Lemma parseConds_throws (conds : list SExpr) (idx : Z) (acc : list Value) :
  throws_only (is_modelError o) (parseConds o idx conds acc).
Proof.
  revert idx acc. induction conds as [|c conds IH]; intros idx acc; cbn [parseConds];
    [exact I|].
  destruct (matchSExpr c (arg_equality idx)) as [b|] eqn:Hm; [|throws_auto].
  apply matchSExpr_arg_equality in Hm as (val & ->). throws_auto.
Qed.
#[local] Hint Resolve parseConds_throws : throws.

Lemma parseFunctions_throws (s : SExpr) (n : jsint) (m : Model) :
  throws_only (is_modelError o) (parseFunctions o s n m).
Proof.
  revert m. induction s as [a|l IH] using SExpr_nested_ind; intros m;
    cbn [parseFunctions]; [chain_shape; throws_auto|].
  destruct (matchSExpr (SList l) ite_group) as [b|] eqn:Hm; [|throws_auto].
  apply matchSExpr_ite_group in Hm as (h & c & t & e & [= ->]).
  throws_auto.
Qed.
#[local] Hint Resolve parseFunctions_throws : throws.

Lemma parseDefinition_throws (d : SExpr) (m : Model) :
  throws_only (is_modelError o) (parseDefinition o d m).
Proof.
  unfold parseDefinition. destruct d as [a|[|x l]]; [throws_auto..|].
  destruct (matchSExpr (SList (x :: l)) define_fun) as [b|] eqn:Hm; [|exact I].
  apply matchSExpr_define_fun in Hm as (name & args & sort & body & _ & Hname & ->).
  cbn [expr_of bind].
  repeat match goal with
         | |- throws_only _ (if ?c then _ else _) => destruct c
         | |- throws_only _ (bind _ _) => throws_auto
         | |- throws_only _ (Ret _) => exact I
         end.
  - throws_auto.
  - apply parseFunctions_throws.
  - destruct (matchSExpr _ heap_shape) as [hb|] eqn:Hh.
    + apply matchSExpr_shape_body in Hh as (hbody & ->). cbn [expr_of bind]. throws_auto.
    + destruct (matchSExpr _ properties_shape) as [pb|] eqn:Hp; [|throws_auto].
      apply matchSExpr_shape_body in Hp as (pbody & ->). cbn [expr_of bind]. throws_auto.
Qed.
#[local] Hint Resolve parseDefinition_throws : throws.

End Failures.

(** X1.  Whatever the text, when the constructor fails it throws the
    structured failure built by [modelError]: a message exception of type
    unrecognized-model, located in the file of the options in force.  No
    other exception leaves the constructor. *)
Theorem Model_new_failure (o : Options) (smt : jsstring) (e : Exn) :
  Model_new o smt = Throw e -> exists msg, e = modelError o msg.
Proof.
  intros H. rewrite Model_new_parses in H.
  destruct (parseSExpr (trim (substr_from 3 smt))) as [message|data].
  - injection H as <-. by exists message.
  - assert (Ht : throws_only (is_modelError o) (Model_of_data o smt data)).
    { unfold Model_of_data. destruct data as [a|l]; [apply is_modelError_intro|].
      destruct (length l <? 2)%nat; [apply is_modelError_intro|].
      destruct l as [|[h|] defs]; try apply is_modelError_intro.
      destruct (str_eqb h (js "model")); [|apply is_modelError_intro].
      apply throws_only_foldM, Forall_forall. intros d _ m.
      apply parseDefinition_throws. }
    rewrite H in Ht. exact Ht.
Qed.

Lemma Model_new_failure_witness :
  Model_new defaultOptions text_unsat = Throw (modelError defaultOptions text_unsat)
  /\ exists msg, modelError defaultOptions text_unsat = modelError defaultOptions msg.
Proof.
  assert (H : Model_new defaultOptions text_unsat
              = Throw (modelError defaultOptions text_unsat)) by (vm_compute; reflexivity).
  split; [exact H|].
  exact (Model_new_failure defaultOptions text_unsat _ H).
Defined.





Section Defaults.

Variable o : Options.





End Defaults.





(** ** Scalar values *)
(** X3.  The parser of condition values and the parser of lazy values agree
    on scalars: the first returns a value exactly when the second returns
    that value and it is a number, a boolean, a string, [null] or
    [undefined]. *)
Theorem tryParseSimpleValue_scalar (o : Options) (s : SExpr) (v : Value) :
  tryParseSimpleValue o s = Ret (Some v) <->
  parseLazyValue o s = Ret v /\ is_scalar v = true.
Proof.
  split.
  - intros H. destruct s as [a|[|[tag|t] rest]]; cbn [tryParseSimpleValue] in H;
      cbn [parseLazyValue]; try discriminate.
    + destruct (str_eqb a (js "jsundefined")); [by injection H as <-|].
      destruct (str_eqb a (js "jsnull")); [by injection H as <-|]. discriminate.
    + destruct (str_eqb tag (js "jsbool")).
      { destruct rest as [|[x|] [|]]; try discriminate. by injection H as <-. }
      destruct (str_eqb tag (js "jsint") || str_eqb tag (js "jsreal")).
      { destruct rest as [|n [|]]; try discriminate.
        destruct (parseNum o n); try discriminate. by injection H as <-. }
      destruct (str_eqb tag (js "jsstr")); [|discriminate].
      destruct rest as [|x [|]]; try discriminate.
      destruct (parseStringValue x); try discriminate. by injection H as <-.
  - intros [H Hv]. destruct s as [a|[|[tag|t] rest]]; cbn [parseLazyValue] in H;
      cbn [tryParseSimpleValue]; try discriminate.
    + destruct (str_eqb a (js "jsundefined")); [by injection H as <-|].
      destruct (str_eqb a (js "jsnull")); [by injection H as <-|].
      invert_Ret; discriminate.
    + destruct (str_eqb tag (js "jsbool")).
      { destruct rest as [|[x|] [|]]; try discriminate. by injection H as <-. }
      destruct (str_eqb tag (js "jsint") || str_eqb tag (js "jsreal")).
      { destruct rest as [|n [|]]; try discriminate.
        destruct (parseNum o n); try discriminate. by injection H as <-. }
      destruct (str_eqb tag (js "jsstr")).
      { destruct rest as [|x [|]]; try discriminate.
        destruct (parseStringValue x); try discriminate. by injection H as <-. }
      invert_Ret; discriminate.
Qed.

Lemma tryParseSimpleValue_scalar_witness :
  parseLazyValue defaultOptions (SList [Atom (js "jsbool"); Atom (js "true")]) = Ret (Bool true)
  /\ is_scalar (Bool true) = true.
Proof.
  apply (proj1 (tryParseSimpleValue_scalar defaultOptions
                  (SList [Atom (js "jsbool"); Atom (js "true")]) (Bool true))).
  reflexivity.
Defined.

(** ** Property sets *)
Lemma new_Set_In (x : jsstring) (l : list jsstring) : In x (new_Set l) <-> In x l.
Proof.
  induction l as [|s l IH]; [reflexivity|]. cbn [new_Set In].
  rewrite filter_In, IH. destruct (decide (s = x)) as [->|Hsx]; [tauto|].
  assert (negb (str_eqb x s) = true).
  { apply negb_true_iff, str_eqb_neq. congruence. }
  tauto.
Qed.

Lemma new_Set_NoDup (l : list jsstring) : List.NoDup (new_Set l).
Proof.
  induction l as [|s l IH]; cbn [new_Set]; constructor.
  - rewrite filter_In, str_eqb_refl. intros [_ H]. discriminate.
  - by apply List.NoDup_filter.
Qed.

Lemma new_Set_id (l : list jsstring) : List.NoDup l -> new_Set l = l.
Proof.
  induction 1 as [|s l Hs _ IH]; [reflexivity|]. cbn [new_Set]. rewrite IH. f_equal.
  clear IH. induction l as [|t l IH]; [reflexivity|]. cbn [List.filter].
  assert (Hts : str_eqb t s = false).
  { apply str_eqb_neq. intros ->. apply Hs. by left. }
  rewrite Hts. cbn [negb]. f_equal. apply IH. intros Hin. apply Hs. by right.
Qed.

Lemma new_Set_idemp (l : list jsstring) : new_Set (new_Set l) = new_Set l.
Proof. apply new_Set_id, new_Set_NoDup. Qed.

Lemma startsWith_nil (s : jsstring) : startsWith s [] = true.
Proof. by destruct s. Qed.

Lemma startsWith_quote_literal (s : jsstring) : startsWith (quote_literal s) dquote = true.
Proof. cbn. apply startsWith_nil. Qed.

Lemma endsWith_quote_literal (s : jsstring) : endsWith (quote_literal s) dquote = true.
Proof.
  unfold endsWith, quote_literal. rewrite !rev_app_distr. cbn. apply startsWith_nil.
Qed.

Lemma strip_ends_quote_literal (s : jsstring) : strip_ends (quote_literal s) = s.
Proof.
  unfold strip_ends, quote_literal, dquote. cbn [app length drop].
  rewrite length_app. cbn [length].
  replace (S (length s + 1) - 2)%nat with (length s) by lia.
  apply take_app_length.
Qed.

Lemma key_text_quote_literal (s : jsstring) :
  key_text (Some (Atom (quote_literal s))) = Some s.
Proof.
  unfold key_text.
  rewrite startsWith_quote_literal, endsWith_quote_literal, strip_ends_quote_literal.
  replace (2 <=? length (quote_literal s))%nat with true; [reflexivity|].
  symmetry. apply Nat.leb_le. unfold quote_literal. cbn. rewrite length_app. cbn. lia.
Qed.

Section PropertySets.

Variable o : Options.

Lemma parsePropertyMapping_bool (b : bool) :
  parsePropertyMapping o (bool_atom b) = Ret (if b then Some [] else None).
Proof. by destruct b. Qed.

(** X4.  On a chain of cases that each name a property and say [true] or
    [false], the decoder of property sets gives the names of the cases that
    say [true], in the order of the chain and each once; it gives [null]
    when no case says [true] and the final leaf is [false]. *)
Theorem parsePropertyMapping_members (cases : list (jsstring * bool)) (b : bool) :
  parsePropertyMapping o (chain_eq (property_cases cases) (bool_atom b))
  = Ret (if b || existsb snd cases then Some (new_Set (members cases)) else None).
Proof.
  induction cases as [|[k inc] cases IH].
  - cbn [property_cases List.map chain_eq]. rewrite parsePropertyMapping_bool.
    cbn. by destruct b.
  - cbn [property_cases List.map chain_eq fst snd parsePropertyMapping].
    rewrite matchSExpr_ite_eq. fold (property_cases cases).
    rewrite parsePropertyMapping_bool, IH. cbn [bind capture rev app find fst snd
      String.eqb Ascii.eqb Bool.eqb].
    rewrite key_text_quote_literal.
    unfold members. cbn [existsb List.filter snd].
    destruct inc; cbn [orb List.map fst app].
    + rewrite orb_true_r.
      destruct (b || existsb snd cases) eqn:Hany.
      * fold (members cases). cbn [new_Set]. by rewrite new_Set_idemp.
      * apply orb_false_iff in Hany as [_ Hany].
        replace (List.filter snd cases) with (@nil (jsstring * bool)); [reflexivity|].
        clear IH. induction cases as [|[k' inc'] cases IH]; [reflexivity|].
        cbn in Hany. apply orb_false_iff in Hany as [-> Hany]. cbn. by apply IH.
    + reflexivity.
Qed.

(** X5.  Whatever the expression, a property set that the decoder returns
    lists no name twice. *)
Theorem parsePropertyMapping_NoDup (s : SExpr) (keys : list jsstring) :
  parsePropertyMapping o s = Ret (Some keys) -> List.NoDup keys.
Proof.
  revert keys. induction s as [a|l IH] using SExpr_nested_ind; intros keys H;
    cbn [parsePropertyMapping] in H; invert_Ret; try discriminate; eauto.
  - constructor.
  - apply (new_Set_NoDup (_ :: _ ++ _)).
  - apply (new_Set_NoDup (_ :: _)).
Qed.

End PropertySets.

Lemma parsePropertyMapping_NoDup_witness :
  parsePropertyMapping defaultOptions
    (chain_eq (property_cases [(js "a", true); (js "b", true); (js "a", true)]) (bool_atom false))
  = Ret (Some [js "a"; js "b"])
  /\ List.NoDup [js "a"; js "b"].
Proof.
  assert (H : parsePropertyMapping defaultOptions
                (chain_eq (property_cases [(js "a", true); (js "b", true); (js "a", true)])
                   (bool_atom false))
              = Ret (Some [js "a"; js "b"])) by (vm_compute; reflexivity).
  split; [exact H|].
  exact (parsePropertyMapping_NoDup defaultOptions _ _ H).
Defined.

(** ** Hydration of an object reference *)

Lemma get_property_set_eq {A : Type} (key : jsstring) (x : A) (o : list (jsstring * A)) :
  get_property key (JSObject.set key x o) = Some x.
Proof.
  induction o as [|[key' x'] o IH]; cbn [JSObject.set get_property].
  - by rewrite str_eqb_refl.
  - destruct (str_eqb key key') eqn:Hk; [cbn; by rewrite str_eqb_refl|].
    destruct (JSObject.before key key'); cbn [get_property].
    + by rewrite str_eqb_refl.
    + by rewrite Hk.
Qed.

Lemma get_property_set_ne {A : Type} (key key' : jsstring) (x : A) (o : list (jsstring * A)) :
  key <> key' -> get_property key' (JSObject.set key x o) = get_property key' o.
Proof.
  intros Hne. assert (Hk : str_eqb key' key = false) by (apply str_eqb_neq; congruence).
  induction o as [|[k y] o IH]; cbn [JSObject.set get_property].
  - by rewrite Hk.
  - destruct (str_eqb key k) eqn:Hkk.
    + apply str_eqb_eq in Hkk as <-. cbn [get_property]. by rewrite Hk.
    + destruct (JSObject.before key k); cbn [get_property]; [by rewrite Hk|].
      by rewrite IH.
Qed.

(** The loop that fills an object: every key of the list is set to the
    result of [h], and no other property changes. *)
Lemma foldM_set_property (h : jsstring -> Result Value) (keys : list jsstring)
    (obj0 obj : list (jsstring * Value)) :
  foldM (fun obj key => x <- h key ;; Ret (JSObject.set key x obj)) obj0 keys = Ret obj ->
  forall key,
    (In key keys -> exists x, h key = Ret x /\ get_property key obj = Some x)
    /\ (~ In key keys -> get_property key obj = get_property key obj0).
Proof.
  revert obj0. induction keys as [|k keys IH]; intros obj0 H key; cbn [foldM] in H.
  - injection H as <-. split; [intros []|reflexivity].
  - apply bind_Ret in H as (obj1 & H1 & H). apply bind_Ret in H1 as (x & Hx & [= <-]).
    destruct (IH _ H key) as [Hin Hout].
    destruct (decide (key ∈ keys)) as [Hk|Hk]; rewrite list_elem_of_In in Hk.
    + split; [auto|]. intros Hn. exfalso. apply Hn. by right.
    + rewrite (Hout Hk). destruct (decide (k = key)) as [->|Hne].
      * rewrite get_property_set_eq. split; [eauto|]. intros Hn. exfalso. apply Hn. by left.
      * rewrite get_property_set_ne by exact Hne. split; [|reflexivity].
        intros [?|?]; contradiction.
Qed.




(** X7.  An object whose own field leads back to the object has no
    hydration: when a name of the property set of an object reference is
    sent by the field table to the same reference, the call returns no
    value, whatever the depth allowed. *)
Theorem hydrate_ObjRef_cycle (o : Options) (m : Model) (name : jsstring)
    (properties : ObjProperties) (fields : ObjFields) (keys : list jsstring) (key : jsstring) :
  objProperties m = Some properties -> objFields m = Some fields ->
  objPropertyMappings m !! properties name = Some keys ->
  In key keys -> fields name key = ObjRef name ->
  forall fuel v, hydrate o fuel m (ObjRef name) <> Ret v.
Proof.
  intros HP HF HM Hin Hself. induction fuel as [|fuel IH]; intros v; [discriminate|].
  cbn [hydrate]. rewrite HP, HF, HM. intros H.
  apply bind_Ret in H as (obj & H & _).
  destruct (foldM_set_property _ keys [] obj H key) as [Hkey _].
  destruct (Hkey Hin) as (x & Hx & _). rewrite Hself in Hx. exact (IH x Hx).
Qed.

Lemma hydrate_ObjRef_cycle_witness :
  hydrate defaultOptions 5 (model_of text_cycle) (ObjRef (js "Obj!0")) = Diverge
  /\ ~ (exists v,
          hydrate defaultOptions 5 (model_of text_cycle) (ObjRef (js "Obj!0")) = Ret v).
Proof.
  split; [vm_compute; reflexivity|]. intros [v Hv].
  apply (hydrate_ObjRef_cycle defaultOptions (model_of text_cycle) (js "Obj!0")
           (default (fun _ => []) (objProperties (model_of text_cycle)))
           (default (fun _ _ => Undefined) (objFields (model_of text_cycle)))
           [js "a"] (js "a") eq_refl eq_refl eq_refl (or_introl eq_refl) eq_refl 5%nat v Hv).
Defined.

(** ** Numerals and string literals *)
(** *** Rounding never gives NaN *)

Lemma iter_pos_invariant {A : Type} (P : A -> Prop) (f : A -> A) :
  (forall x, P x -> P (f x)) -> forall p x, P x -> P (SpecFloat.iter_pos f p x).
Proof. intros Hf. induction p as [p IH|p IH|]; intros x Hx; cbn; auto. Qed.

Lemma shr_1_nonneg (mrs : shr_record) : 0 <= shr_m mrs -> 0 <= shr_m (shr_1 mrs).
Proof. destruct mrs as [[|[p|p|]|p] r s]; cbn; lia. Qed.

Lemma shr_fexp_nonneg (m e : Z) (l : location) :
  0 <= m -> 0 <= shr_m (fst (shr_fexp prec emax m e l)).
Proof.
  intros Hm. unfold shr_fexp, shr.
  assert (H0 : 0 <= shr_m (shr_record_of_loc m l)) by (by destruct l as [|[]]).
  destruct (_ - e) as [|p|p]; cbn [fst]; try exact H0.
  by apply (iter_pos_invariant (fun mrs => 0 <= shr_m mrs)); [apply shr_1_nonneg|].
Qed.

Lemma round_nearest_even_nonneg (m : Z) (l : location) :
  0 <= m -> 0 <= round_nearest_even m l.
Proof. intros Hm. destruct l as [|[]]; cbn; try destruct (Z.even m); lia. Qed.

Lemma binary_round_aux_not_nan (sx : bool) (mx ex : Z) (lx : location) :
  0 <= mx -> isNaN (binary_round_aux prec emax sx mx ex lx) = false.
Proof.
  intros Hm. unfold binary_round_aux.
  pose proof (shr_fexp_nonneg mx ex lx Hm) as H1.
  destruct (shr_fexp prec emax mx ex lx) as [mrs' e']. cbn [fst] in H1.
  pose proof (shr_fexp_nonneg _ e' loc_Exact
                (round_nearest_even_nonneg _ (loc_of_shr_record mrs') H1)) as H2.
  destruct (shr_fexp prec emax _ e' loc_Exact) as [mrs'' e'']. cbn [fst] in H2.
  destruct (shr_m mrs'') as [|p|p]; [reflexivity| |lia].
  by destruct (e'' <=? emax - prec).
Qed.

Lemma binary_normalize_not_nan (m e : Z) (szero : bool) :
  isNaN (binary_normalize prec emax m e szero) = false.
Proof.
  destruct m as [|p|p]; [reflexivity|..]; cbn [binary_normalize]; unfold binary_round;
    destruct (shl_align _ _ _) as [mz ez]; by apply binary_round_aux_not_nan.
Qed.

(** The conversion of a decimal to a number never gives NaN. *)
Lemma of_decimal_not_nan (neg : bool) (m : N) (e10 : Z) : isNaN (of_decimal neg m e10) = false.
Proof.
  unfold of_decimal. destruct (m =? 0)%N; [reflexivity|]. cbv zeta.
  assert (H : forall x, isNaN x = false -> isNaN (if neg then SFopp x else x) = false).
  { intros x Hx. destruct neg; [|exact Hx]. by destruct x. }
  apply H. destruct (0 <=? e10); apply binary_normalize_not_nan.
Qed.

(** *** Reading a numeral *)

Lemma digit_char_range (d : N) : (d < 36)%N ->
  (48 <= digit_char d <= 57 /\ d < 10 \/ 97 <= digit_char d <= 122 /\ 10 <= d)%N.
Proof. intros Hd. unfold digit_char. destruct (N.ltb_spec d 10); lia. Qed.

Lemma digit_val_digit_char (d : N) : (d < 36)%N -> digit_val (digit_char d) = Some d.
Proof.
  intros Hd. unfold digit_val, digit_char.
  destruct (N.ltb_spec d 10).
  - replace ((48 <=? 48 + d) && (48 + d <=? 57))%N with true.
    + f_equal. lia.
    + symmetry. apply andb_true_iff. split; apply N.leb_le; lia.
  - replace ((48 <=? 87 + d) && (87 + d <=? 57))%N with false.
    + replace ((97 <=? 87 + d) && (87 + d <=? 122))%N with true; [f_equal; lia|].
      symmetry. apply andb_true_iff. split; apply N.leb_le; lia.
    + symmetry. apply andb_false_iff. right. apply N.leb_gt. lia.
Qed.

Lemma read_digits_numeral (radix : N) (ds : list N) :
  (radix <= 36)%N -> Forall (fun d => (d < radix)%N) ds ->
  read_digits radix (numeral ds) = (ds, []).
Proof.
  intros Hr. induction 1 as [|d ds Hd _ IH]; [reflexivity|].
  cbn [numeral List.map read_digits]. rewrite digit_val_digit_char by lia.
  apply N.ltb_lt in Hd. rewrite Hd. fold (numeral ds). by rewrite IH.
Qed.

Lemma is_space_printable (c : N) : (33 <= c <= 159)%N -> is_space c = false.
Proof.
  intros Hc. unfold is_space.
  repeat match goal with
         | |- context [(?a <=? ?b)%N] => destruct (N.leb_spec a b); try lia
         | |- context [(?a =? ?b)%N] => destruct (N.eqb_spec a b); try lia
         end; reflexivity.
Qed.

Lemma trimStart_printable (c : N) (s : jsstring) :
  (33 <= c <= 159)%N -> trimStart (c :: s) = c :: s.
Proof. intros Hc. cbn [trimStart]. by rewrite is_space_printable. Qed.

Lemma read_sign_other (c : N) (s : jsstring) :
  c <> 45%N -> c <> 43%N -> read_sign (c :: s) = (false, c :: s).
Proof.
  intros H1 H2. unfold read_sign. destruct c as [|p]; [reflexivity|].
  do 6 (try destruct p as [p|p|]; try reflexivity); congruence.
Qed.

Lemma skip_prefix_other (c1 c2 : N) (s : jsstring) :
  c2 <> 120%N -> c2 <> 88%N ->
  match c1 :: c2 :: s with
  | 48%N :: 120%N :: s' => s'
  | 48%N :: 88%N :: s' => s'
  | _ => c1 :: c2 :: s
  end = c1 :: c2 :: s.
Proof.
  intros H1 H2. destruct (N.eq_dec c1 48%N) as [->|Hc1].
  - destruct c2 as [|p]; [reflexivity|].
    do 7 (try destruct p as [p|p|]; try reflexivity); congruence.
  - destruct c1 as [|p]; [reflexivity|].
    do 6 (try destruct p as [p|p|]; try reflexivity); congruence.
Qed.

Lemma skip_prefix_numeral (ds : list N) :
  Forall (fun d => (d < 16)%N) ds ->
  match numeral ds with
  | 48%N :: 120%N :: s' => s'
  | 48%N :: 88%N :: s' => s'
  | _ => numeral ds
  end = numeral ds.
Proof.
  intros Hds. destruct ds as [|d1 [|d2 ds]]; [reflexivity|..]; cbn [numeral List.map].
  - destruct (digit_char d1) as [|p]; [reflexivity|].
    do 6 (try destruct p as [p|p|]; try reflexivity).
  - inversion Hds as [|? ? _ Hds2]; inversion Hds2; subst.
    apply skip_prefix_other; unfold digit_char; destruct (N.ltb_spec d2 10); lia.
Qed.

(** [parseInt] on a numeral of the radix reads all of it. *)
Lemma parseIntParts_numeral (radix : N) (ds : list N) :
  (radix <= 16)%N -> ds <> [] -> Forall (fun d => (d < radix)%N) ds ->
  parseIntParts (numeral ds) radix = Some (false, digits_value radix ds).
Proof.
  intros Hr Hne Hds. unfold parseIntParts.
  assert (Hsign : read_sign (trimStart (numeral ds)) = (false, numeral ds)).
  { destruct ds as [|d ds]; [done|].
    assert (Hd : (d < 16)%N) by (inversion Hds; lia).
    cbn [numeral List.map].
    destruct (digit_char_range d ltac:(lia)) as [[? ?]|[? ?]];
      by rewrite trimStart_printable, read_sign_other by lia. }
  rewrite Hsign. cbv beta iota zeta.
  assert (Hskip : (if (radix =? 16)%N
                   then match numeral ds with
                        | 48%N :: 120%N :: s' => s'
                        | 48%N :: 88%N :: s' => s'
                        | _ => numeral ds
                        end
                   else numeral ds) = numeral ds).
  { destruct (radix =? 16)%N; [|reflexivity]. apply skip_prefix_numeral.
    eapply Forall_impl; [exact Hds|]. cbn. lia. }
  rewrite Hskip, read_digits_numeral by (lia || assumption).
  destruct ds; [done | reflexivity].
Qed.


Lemma parseFloat_numeral (ds : list N) :
  ds <> [] -> Forall (fun d => (d < 10)%N) ds ->
  parseFloat (numeral ds) = of_decimal false (digits_value 10 ds) 0.
Proof.
  intros Hne Hds. unfold parseFloat.
  destruct ds as [|d ds]; [done|]. clear Hne.
  assert (Hd : (d < 10)%N) by (inversion Hds; lia).
  destruct (digit_char_range d ltac:(lia)) as [[? ?]|[? ?]]; [|lia].
  cbn [numeral List.map]. rewrite trimStart_printable, read_sign_other by lia.
  cbv beta iota zeta.
  cbn [startsWith js List.map list_ascii_of_string].
  replace (N_of_ascii "I" =? digit_char d)%N with false
    by (symmetry; apply N.eqb_neq; cbn; lia).
  cbn [andb]. fold (numeral ds). change (digit_char d :: numeral ds) with (numeral (d :: ds)).
  rewrite read_digits_numeral by (lia || assumption).
  rewrite app_nil_r. reflexivity.
Qed.
(** X8.  A numeral is decoded to the number nearest to its value in each
    of the three notations: decimal digits, hexadecimal digits after [#x],
    and binary digits after [#b]. *)
Theorem parseNum_numeral (o : Options) (ds : list N) :
  ds <> [] ->
  (Forall (fun d => (d < 10)%N) ds ->
   parseNum o (Atom (numeral ds)) = Ret (of_decimal false (digits_value 10 ds) 0))
  /\ (Forall (fun d => (d < 16)%N) ds ->
      parseNum o (Atom (js "#x" ++ numeral ds))
      = Ret (of_decimal false (digits_value 16 ds) 0))
  /\ (Forall (fun d => (d < 2)%N) ds ->
      parseNum o (Atom (js "#b" ++ numeral ds))
      = Ret (of_decimal false (digits_value 2 ds) 0)).
Proof.
  intros Hne. split; [|split]; intros Hds; cbn [parseNum].
  - rewrite parseFloat_numeral by assumption.
    by rewrite of_decimal_not_nan.
  - change (parseFloat (js "#x" ++ numeral ds)) with S754_nan.
    change (substr_from 2 (js "#x" ++ numeral ds)) with (numeral ds).
    unfold parseIntNumber. rewrite parseIntParts_numeral by (lia || assumption).
    rewrite of_decimal_not_nan. cbn. by rewrite startsWith_nil.
  - change (parseFloat (js "#b" ++ numeral ds)) with S754_nan.
    change (substr_from 2 (js "#b" ++ numeral ds)) with (numeral ds).
    change (startsWith (js "#b" ++ numeral ds) (js "#x")) with false. cbn [andb negb isNaN].
    unfold parseIntNumber. rewrite parseIntParts_numeral by (lia || assumption).
    rewrite of_decimal_not_nan. cbn. by rewrite startsWith_nil.
Qed.

Lemma parseNum_numeral_witness :
  parseNum defaultOptions (Atom (js "10")) = Ret (of_decimal false 10 0)
  /\ parseNum defaultOptions (Atom (js "#x0a")) = Ret (of_decimal false 10 0)
  /\ parseNum defaultOptions (Atom (js "#b1010")) = Ret (of_decimal false 10 0).
Proof.
  split; [|split].
  - apply (proj1 (parseNum_numeral defaultOptions [1; 0]%N ltac:(discriminate))).
    repeat constructor.
  - apply (proj1 (proj2 (parseNum_numeral defaultOptions [0; 10]%N ltac:(discriminate)))).
    repeat constructor.
  - apply (proj2 (proj2 (parseNum_numeral defaultOptions [1; 0; 1; 0]%N ltac:(discriminate)))).
    repeat constructor.
Defined.

(** X9.  A quoted literal without a backslash decodes to the text between
    its quotes, unchanged. *)
Theorem parseStringValue_literal (s : jsstring) :
  Forall (fun c => c <> 92%N) s ->
  parseStringValue (Atom (quote_literal s)) = Some s.
Proof.
  intros Hs. cbn [parseStringValue].
  rewrite startsWith_quote_literal, endsWith_quote_literal, strip_ends_quote_literal.
  cbn [andb]. f_equal.
  induction Hs as [|c rest Hc _ IH]; [reflexivity|].
  cbn [replace_escapes]. rewrite IH.
  apply N.eqb_neq in Hc. rewrite Hc.
  by destruct rest as [|x [|d1 [|d2 s']]].
Qed.

Lemma parseStringValue_literal_witness :
  parseStringValue (Atom (quoted "a b")) = Some (js "a b").
Proof.
  apply (parseStringValue_literal (js "a b")).
  repeat constructor; discriminate.
Defined.

(** X10.  A concatenation [(str.++ p1 ... pn)] decodes exactly when every
    part decodes, and then to the concatenation of the decoded parts in
    order; one part that does not decode makes the whole [null]. *)
Theorem parseStringValue_concat_parts (parts : list SExpr) (r : jsstring) :
  parseStringValue (SList (Atom (js "str.++") :: parts)) = Some r <->
  exists xs,
    Forall2 (fun p x => parseStringValue p = Some x) parts xs /\ r = List.concat xs.
Proof.
  cbn [parseStringValue].
  replace (head_is (Atom (js "str.++")) "str.++") with true by (vm_compute; reflexivity).
  match goal with
  | |- ?loop [] parts = Some r <-> _ =>
      enough (H : forall acc r,
                 loop acc parts = Some r <->
                 exists xs,
                   Forall2 (fun p x => parseStringValue p = Some x) parts xs
                   /\ r = acc ++ List.concat xs) by exact (H [] r)
  end.
  clear r. induction parts as [|p parts IH]; intros acc r.
  - split.
    + intros [= <-]. exists []. split; [constructor|]. by rewrite app_nil_r.
    + intros (xs & Hxs & ->). inversion Hxs. by rewrite app_nil_r.
  - destruct (parseStringValue p) as [x|] eqn:Hp.
    + rewrite IH. split.
      * intros (xs & Hxs & ->). exists (x :: xs). split; [by constructor|].
        cbn. by rewrite app_assoc.
      * intros (xs & Hxs & ->). inversion Hxs as [|? x' ? xs' Hx Hxs']; subst.
        assert (x' = x) by congruence. subst x'.
        exists xs'. split; [exact Hxs'|]. cbn. by rewrite app_assoc.
    + split; [discriminate|].
      intros (xs & Hxs & _). inversion Hxs; congruence.
Qed.

Lemma parseStringValue_concat_parts_witness :
  parseStringValue
    (SList [Atom (js "str.++"); Atom (quoted "a"); Atom (quoted "b"); Atom (quoted "c")])
  = Some (js "abc").
Proof.
  apply (proj2 (parseStringValue_concat_parts
                  [Atom (quoted "a"); Atom (quoted "b"); Atom (quoted "c")] (js "abc"))).
  exists [js "a"; js "b"; js "c"]. split; [repeat constructor | reflexivity].
Defined.



(** ** The heap and object tables *)

Section Tables.

Variable o : Options.

Lemma parseHeapMapping_leaf (s : SExpr) (v : Value) :
  parseLazyValue o s = Ret v -> parseHeapMapping o s = Ret (fun _ => v).
Proof.
  intros H. pose proof (parseLazyValue_leaf o s v) as Hleaf.
  destruct s as [a|l]; cbn [parseHeapMapping]; unfold ite_eq;
    rewrite (Hleaf _ H), H; reflexivity.
Qed.

(** X12.  The decoder of a heap mapping gives a lookup function defined on
    every location, in which the first case of the chain whose equality
    holds gives the value and the trailing leaf is the fallback. *)
Theorem parseHeapMapping_chain (cases : list (jsstring * SExpr)) (vals : list Value)
    (leaf : SExpr) (dflt : Value) :
  Forall2 (fun c v => parseLazyValue o (snd c) = Ret v) cases vals ->
  parseLazyValue o leaf = Ret dflt ->
  exists f : HeapMapping,
    parseHeapMapping o (chain_eq cases leaf) = Ret f
    /\ forall loc, f loc = first_match loc (combine (List.map fst cases) vals) dflt.
Proof.
  intros Hcases Hleaf. induction Hcases as [|[k t] v cases vals Hv _ (f & Hf & Hkey)].
  - exists (fun _ => dflt). split; [|reflexivity]. by apply parseHeapMapping_leaf.
  - cbn [fst snd] in Hv. eexists. split.
    + cbn [chain_eq fst snd parseHeapMapping].
      rewrite matchSExpr_ite_eq, (parseHeapMapping_leaf _ _ Hv), Hf. reflexivity.
    + intros loc. cbn. destruct (str_eqb loc k); [reflexivity | apply Hkey].
Qed.

Lemma parseObjectProperties_leaf (alias : jsstring) :
  parseObjectProperties o (as_array_expr alias) = Ret (fun _ => alias).
Proof. reflexivity. Qed.

Lemma parseObjectFields_leaf (s : SExpr) (v : Value) :
  parseLazyValue o s = Ret v -> parseObjectFields o s = Ret (fun _ _ => v).
Proof.
  intros H. pose proof (parseLazyValue_leaf o s v) as Hleaf.
  destruct s as [a|l]; cbn [parseObjectFields]; unfold ite_and;
    rewrite (Hleaf _ H), H; reflexivity.
Qed.

(** X13.  The decoders of the two object tables give lookup functions with
    the same first-match reading: the properties table sends an object to
    the alias of the first case on that object, the field table sends an
    object and a property name to the value of the first case on both, the
    name being the text between the quotes of the literal. *)
Theorem object_tables_first_match :
  (forall (cases : list (jsstring * jsstring)) (dflt : jsstring),
     exists f : ObjProperties,
       parseObjectProperties o (chain_eq (aliases cases) (as_array_expr dflt)) = Ret f
       /\ forall obj, f obj = first_match obj cases dflt)
  /\ (forall (cases : list (jsstring * jsstring * SExpr)) (vals : list Value)
        (leaf : SExpr) (dflt : Value),
        Forall2 (fun c v => parseLazyValue o (snd c) = Ret v) cases vals ->
        parseLazyValue o leaf = Ret dflt ->
        exists f : ObjFields,
          parseObjectFields o (chain_and (field_cases cases) leaf) = Ret f
          /\ forall obj prop,
               f obj prop = first_field obj prop (combine (List.map fst cases) vals) dflt).
Proof.
  split.
  - intros cases dflt. induction cases as [|[k alias] cases (f & Hf & Hkey)].
    + eexists. split; [apply parseObjectProperties_leaf | reflexivity].
    + eexists. split.
      * cbn [aliases List.map chain_eq fst snd parseObjectProperties].
        rewrite matchSExpr_ite_eq. fold (aliases cases).
        rewrite parseObjectProperties_leaf, Hf. reflexivity.
      * intros obj. cbn. destruct (str_eqb obj k); [reflexivity | apply Hkey].
  - intros cases vals leaf dflt Hcases Hleaf.
    induction Hcases as [|[[a k] t] v cases vals Hv _ (f & Hf & Hkey)].
    + exists (fun _ _ => dflt). split; [|reflexivity]. by apply parseObjectFields_leaf.
    + cbn [fst snd] in Hv. eexists. split.
      * cbn [field_cases List.map chain_and fst snd parseObjectFields].
        rewrite matchSExpr_ite_and. fold (field_cases cases).
        rewrite (parseObjectFields_leaf _ _ Hv), Hf.
        cbn [bind capture rev app find fst snd String.eqb Ascii.eqb Bool.eqb].
        rewrite key_text_quote_literal. reflexivity.
      * intros obj prop. cbn.
        destruct (str_eqb obj a && str_eqb prop k); [reflexivity | apply Hkey].
Qed.

End Tables.

Lemma parseHeapMapping_chain_witness :
  exists f : HeapMapping,
    parseHeapMapping defaultOptions
      (chain_eq [(js "L0", SList [Atom (js "jsbool"); Atom (js "true")])]
         (Atom (js "jsundefined"))) = Ret f
    /\ forall loc, f loc = first_match loc [(js "L0", Bool true)] Undefined.
Proof.
  apply (parseHeapMapping_chain defaultOptions
           [(js "L0", SList [Atom (js "jsbool"); Atom (js "true")])]
           [Bool true] (Atom (js "jsundefined")) Undefined).
  - repeat constructor.
  - reflexivity.
Defined.

Lemma object_tables_first_match_witness :
  exists f : ObjFields,
    parseObjectFields defaultOptions
      (chain_and (field_cases [(js "Obj!0", js "a", SList [Atom (js "jsbool"); Atom (js "true")])])
         (Atom (js "jsundefined"))) = Ret f
    /\ forall obj prop,
         f obj prop = first_field obj prop [(js "Obj!0", js "a", Bool true)] Undefined.
Proof.
  apply (proj2 (object_tables_first_match defaultOptions)
           [(js "Obj!0", js "a", SList [Atom (js "jsbool"); Atom (js "true")])]
           [Bool true] (Atom (js "jsundefined")) Undefined).
  - repeat constructor.
  - reflexivity.
Defined.

(** ** The variables of a model *)


Lemma matchSExpr_definition (name : jsstring) (args : list SExpr) (sort body : SExpr) :
  matchSExpr (definition name args sort body) define_fun
  = Some [("name"%string, Atom name); ("args"%string, SList args);
          ("return"%string, sort); ("body"%string, body)].
Proof. reflexivity. Qed.

Lemma startsWith_cons (s p : jsstring) (c : N) :
  startsWith s (c :: p) = true <-> exists s', s = c :: s' /\ startsWith s' p = true.
Proof.
  destruct s as [|d s]; cbn [startsWith].
  - split; [discriminate | by intros (? & ? & _)].
  - rewrite andb_true_iff, N.eqb_eq. split.
    + intros [-> H]. eauto.
    + intros (s' & [= -> ->] & H). auto.
Qed.

Section Bindings.

Variable o : Options.







End Bindings.






(** ** Definitions that are not decoded *)

(** X16.  A definition whose name starts with [c_], [pre], [post], [eff] or
    [call] is skipped: whatever its arguments, sort and body, the model is
    left as it was and nothing is thrown. *)
Theorem parseDefinition_ignored (o : Options) (name : jsstring) (args : list SExpr)
    (sort body : SExpr) (m : Model) :
  startsWith name (js "c_") || startsWith name (js "pre") || startsWith name (js "post")
  || startsWith name (js "eff") || startsWith name (js "call") = true ->
  parseDefinition o (definition name args sort body) m = Ret m.
Proof.
  intros H. unfold parseDefinition. cbn [definition].
  fold (definition name args sort body). rewrite matchSExpr_definition.
  cbn [capture rev app find fst snd String.eqb Ascii.eqb Bool.eqb as_string
         SExpr_toString expr_of bind].
  assert (Hhead : exists c s, name = c :: s /\ (c = 99 \/ c = 112 \/ c = 101)%N).
  { repeat (apply orb_true_iff in H as [H|H]);
      apply startsWith_cons in H as (s & -> & _); eauto 7. }
  destruct Hhead as (c & s & -> & Hc).
  replace (startsWith (c :: s) (js "v_")) with false
    by (destruct Hc as [->|[->| ->]]; reflexivity).
  replace (startsWith (c :: s) (js "l_")) with false
    by (destruct Hc as [->|[->| ->]]; reflexivity).
  replace (startsWith (c :: s) (js "h_")) with false
    by (destruct Hc as [->|[->| ->]]; reflexivity).
  replace (str_eqb (c :: s) (js "arrlength")) with false
    by (destruct Hc as [->|[->| ->]]; reflexivity).
  replace (str_eqb (c :: s) (js "arrelems")) with false
    by (destruct Hc as [->|[->| ->]]; reflexivity).
  replace (str_eqb (c :: s) (js "objproperties")) with false
    by (destruct Hc as [->|[->| ->]]; reflexivity).
  replace (str_eqb (c :: s) (js "objfield")) with false
    by (destruct Hc as [->|[->| ->]]; reflexivity).
  destruct (startsWith (c :: s) (js "c_")); [reflexivity|].
  replace (startsWith (c :: s) (js "app")) with false
    by (destruct Hc as [->|[->| ->]]; reflexivity).
  cbn [orb] in H. by rewrite H.
Qed.

Lemma parseDefinition_ignored_witness :
  parseDefinition defaultOptions
    (definition (js "c_Foo") [] (Atom (js "ClassName")) (SList [])) Model_init
  = Ret Model_init.
Proof.
  apply (parseDefinition_ignored defaultOptions (js "c_Foo") [] (Atom (js "ClassName"))
           (SList []) Model_init).
  reflexivity.
Defined.

(** ** Synthesized functions *)




(** ** Rendering a value as syntax *)

(** Induction on a value with the parts of an object, of a class instance
    and of an array at hand. *)
Lemma Value_nested_ind (P : Value -> Prop) :
  (forall v, P (Num v)) -> (forall v, P (Bool v)) -> (forall v, P (Str v)) ->
  P Null -> P Undefined -> (forall body, P (Fun body)) ->
  (forall v, Forall (fun p => P (snd p)) v -> P (Obj v)) ->
  (forall cls args, Forall P args -> P (ObjCls cls args)) ->
  (forall elems, Forall P elems -> P (Arr elems)) ->
  (forall name, P (ArrRef name)) -> (forall name, P (ObjRef name)) ->
  (forall name, P (FunRef name)) -> (forall name, P (Loc name)) ->
  forall val, P val.
Proof.
  intros HNum HBool HStr HNull HUndef HFun HObj HCls HArr HAR HOR HFR HLoc.
  fix IH 1. intros [v|v|v| | |body|v|cls args|elems|name|name|name|name];
    [apply HNum|apply HBool|apply HStr|exact HNull|exact HUndef|apply HFun| | |
    |apply HAR|apply HOR|apply HFR|apply HLoc].
  - apply HObj. induction v as [|[k x] v IHv]; constructor; [apply IH | exact IHv].
  - apply HCls. induction args as [|x args IHa]; constructor; [apply IH | exact IHa].
  - apply HArr. induction elems as [|x elems IHe]; constructor; [apply IH | exact IHe].
Qed.

Lemma map_injective_on {A B : Type} (f : A -> B) (p : A -> bool) (l1 l2 : list A) :
  Forall (fun x => forall y, p x = true -> p y = true -> f x = f y -> x = y) l1 ->
  forallb p l1 = true -> forallb p l2 = true ->
  List.map f l1 = List.map f l2 -> l1 = l2.
Proof.
  intros H. revert l2. induction H as [|x l1 Hx _ IH]; intros [|y l2]; cbn;
    try discriminate; [reflexivity|].
  intros H1 H2 [= Hxy Hl]. apply andb_true_iff in H1 as [? ?], H2 as [? ?].
  f_equal; auto.
Qed.

(** X18.  On concrete values that hold no function, the rendering as
    syntax loses nothing: two such values with the same syntax are the same
    value. *)
Theorem valueToJavaScript_injective (v1 v2 : Value) :
  is_data v1 = true -> is_data v2 = true ->
  valueToJavaScript v1 = valueToJavaScript v2 -> v1 = v2.
Proof.
  revert v2. induction v1 as [v|v|v| | |body|v IH|cls args IH|elems IH|name|name|name|name]
    using Value_nested_ind; intros v2 H1 H2 H; try discriminate H1;
    destruct v2; try discriminate H2; try discriminate H; cbn in H.
  - by injection H as ->.
  - by injection H as ->.
  - by injection H as ->.
  - reflexivity.
  - reflexivity.
  - injection H as H. f_equal. cbn in H1, H2.
    eapply (map_injective_on (fun p => (fst p, valueToJavaScript (snd p)))
              (fun p => is_data (snd p))); [|eassumption..].
    eapply Forall_impl; [exact IH|]. cbn. intros [k x] Hx [k' y] ? ? [= -> Hxy].
    f_equal. cbn in *. auto.
  - injection H as -> H. f_equal. cbn in H1, H2.
    eapply (map_injective_on valueToJavaScript is_data); eassumption.
  - injection H as H. f_equal. cbn in H1, H2.
    eapply (map_injective_on valueToJavaScript is_data); eassumption.
Qed.

Lemma valueToJavaScript_injective_witness :
  Arr [Bool true; Null] = Arr [Bool true; Null].
Proof.
  apply (valueToJavaScript_injective (Arr [Bool true; Null]) (Arr [Bool true; Null]));
    reflexivity.
Defined.

(** ** The test of a branch *)

Lemma reduceRight_cons {A : Type} (f : A -> A -> A) (a b : A) (l : list A) (d : A) :
  reduceRight f (a :: b :: l) d = f (reduceRight f (b :: l) d) a.
Proof.
  unfold reduceRight. cbn [rev].
  destruct (rev l ++ [b]) as [|x before] eqn:Hr.
  - by destruct (rev l).
  - cbn [app]. by rewrite fold_left_app.
Qed.

(** X19.  The test of a branch is the conjunction of the equalities
    [x_i === c_i] on its conditions, in the order of the arguments and
    nested to the right; a single condition gives its equality alone. *)
Theorem branch_test_conjunction (conds : list Value) :
  branch_test conds = conjunction 0 conds.
Proof.
  unfold branch_test. generalize 0%nat as i.
  induction conds as [|c [|c' conds] IH]; intros i; [reflexivity..|].
  cbn [length seq combine List.map]. rewrite reduceRight_cons.
  cbn [conjunction]. f_equal. exact (IH (S i)).
Qed.

(** ** Hydration of concrete values *)

Lemma mapM_id {A : Type} (f : A -> Result A) (l : list A) :
  Forall (fun x => f x = Ret x) l -> mapM f l = Ret l.
Proof. induction 1 as [|x l Hx _ IH]; cbn; [reflexivity|by rewrite Hx, IH]. Qed.

(** A concrete value hydrates to itself, with fuel above the nesting depth
    of its class instances. *)
Lemma hydrate_isJSVal_id (o : Options) (m : Model) (fuel : nat) (v : Value) :
  isJSVal v = true -> (height v < fuel)%nat -> hydrate o fuel m v = Ret v.
Proof.
  revert v. induction fuel as [|fuel IH]; intros v Hv Hh; [lia|].
  destruct v; try discriminate Hv; try reflexivity.
  cbn [hydrate]. rewrite mapM_id; [reflexivity|].
  cbn [isJSVal height] in Hv, Hh. apply Forall_forall. intros x Hx.
  apply IH.
  - rewrite forallb_forall in Hv. apply Hv. by apply list_elem_of_In.
  - assert (Hmax : Forall (fun k => (k <= list_max (List.map height args))%nat)
                     (List.map height args)) by (by apply list_max_le).
    rewrite Forall_forall in Hmax. specialize (Hmax (height x)).
    assert ((height x <= list_max (List.map height args))%nat); [|lia].
    apply Hmax. apply list_elem_of_In, in_map, list_elem_of_In, Hx.
Qed.

(** X20.  Hydration is the identity on concrete values, whatever the
    model, and so it is idempotent: on a model built by the constructor,
    the value that a hydration returned hydrates to itself. *)
Theorem hydrate_idempotent (o : Options) (m : Model) :
  (forall v fuel, isJSVal v = true -> (height v < fuel)%nat -> hydrate o fuel m v = Ret v)
  /\ (forall o0 smt val fuel v,
        Model_new o0 smt = Ret m -> isLazyValue val = true ->
        hydrate o fuel m val = Ret v ->
        forall fuel', (height v < fuel')%nat -> hydrate o fuel' m v = Ret v).
Proof.
  split.
  - intros v fuel. apply hydrate_isJSVal_id.
  - intros o0 smt val fuel v Hm Hval Hv fuel' Hfuel.
    apply hydrate_isJSVal_id; [|exact Hfuel].
    apply Model_new_wf in Hm. eapply hydrate_isJSVal; eassumption.
Qed.

Lemma hydrate_idempotent_witness :
  hydrate defaultOptions 2 (model_of text_object) (ObjRef (js "Obj!0"))
  = Ret (Obj [(js "a", Bool true)])
  /\ hydrate defaultOptions 1 (model_of text_object) (Obj [(js "a", Bool true)])
     = Ret (Obj [(js "a", Bool true)]).
Proof.
  assert (H : hydrate defaultOptions 2 (model_of text_object) (ObjRef (js "Obj!0"))
              = Ret (Obj [(js "a", Bool true)])) by (vm_compute; reflexivity).
  split; [exact H|].
  apply (proj2 (hydrate_idempotent defaultOptions (model_of text_object))
           defaultOptions text_object (ObjRef (js "Obj!0")) 2%nat _
           ltac:(vm_compute; reflexivity) eq_refl H 1%nat).
  cbn. lia.
Defined.

(** ** Cases that are skipped *)

Section SkippedCases.

Variable o : Options.

Lemma matchSExpr_ite_group_list (conds : list SExpr) (t els : SExpr) :
  matchSExpr (SList [Atom (js "ite"); SList conds; t; els]) ite_group
  = Some [("cond"%string, SList conds); ("then"%string, t); ("els"%string, els)].
Proof. reflexivity. Qed.

(** X21.  The builder of the function tables decodes the rest of a chain
    before it looks at the case in front of it, so a failure in the rest is
    the failure of the whole.  When the rest decodes, a case whose
    conjunction has fewer than three elements or does not start with [and]
    fails with the unrecognized-model error, and a case whose second
    element is not the identity of a function is skipped, whatever its
    other conditions and its result: the table is that of the rest. *)
Theorem parseFunctions_skipped (conds : list SExpr) (t els : SExpr) (n : jsint) (m : Model) :
  (forall e,
     parseFunctions o els n m = Throw e ->
     parseFunctions o (SList [Atom (js "ite"); SList conds; t; els]) n m = Throw e)
  /\ (forall m1,
        parseFunctions o els n m = Ret m1 ->
        (length conds < 3)%nat \/ head conds <> Some (Atom (js "and")) ->
        parseFunctions o (SList [Atom (js "ite"); SList conds; t; els]) n m
        = Throw (modelError o (js "expected (and ...)")))
  /\ (forall c1 c2 rest,
        conds = Atom (js "and") :: c1 :: c2 :: rest ->
        matchSExpr c1 fun_identity = None ->
        parseFunctions o (SList [Atom (js "ite"); SList conds; t; els]) n m
        = parseFunctions o els n m).
Proof.
  split; [|split].
  - intros e H. cbn [parseFunctions]. rewrite matchSExpr_ite_group_list, H. reflexivity.
  - intros m1 H Hconds. cbn [parseFunctions]. rewrite matchSExpr_ite_group_list, H.
    cbn [bind]. destruct conds as [|a [|c1 [|c2 rest]]]; try reflexivity.
    destruct Hconds as [Hlen|Hhead]; [cbn in Hlen; lia|].
    destruct a as [a|]; [|reflexivity]. cbn [head_is].
    destruct (str_eqb a (js "and")) eqn:Ha; [|reflexivity].
    apply str_eqb_eq in Ha as ->. by destruct Hhead.
  - intros c1 c2 rest -> Hc1. cbn [parseFunctions]. rewrite matchSExpr_ite_group_list.
    replace (head_is (Atom (js "and")) "and") with true by (vm_compute; reflexivity).
    rewrite Hc1. cbn [negb]. by destruct (parseFunctions o els n m).
Qed.

End SkippedCases.

Lemma parseFunctions_skipped_witness :
  parseFunctions defaultOptions
    (SList [Atom (js "ite");
            SList [Atom (js "and"); Atom (js "true"); Atom (js "true")];
            SList []; Atom (js "jsnull")]) (Int 1) Model_init
  = parseFunctions defaultOptions (Atom (js "jsnull")) (Int 1) Model_init.
Proof.
  apply (proj2 (proj2 (parseFunctions_skipped defaultOptions
                         [Atom (js "and"); Atom (js "true"); Atom (js "true")]
                         (SList []) (Atom (js "jsnull")) (Int 1) Model_init))
           (Atom (js "true")) (Atom (js "true")) []); reflexivity.
Defined.
